(** * A caching HTTP forward proxy ([proxy.c]): shallow embedding and properties

    The development follows the layout of the C file:
    - [CString]: the <string.h> functions the program calls ([strchr],
      [strncmp], [strtok]) on NUL-free text;
    - [RequestLine]: [check_request_line];
    - [Url]: [parse_url];
    - [Cache]: the global list [cachehead] / [cachesize] with
      [get_cached_item], [delete_last_cache] and the insertion block of
      [proxy];
    - [Handler]: the thread routine [proxy] as a function from the bytes the
      two sockets deliver to the trace of writes, closes and frees.
    - [Wording], [Recency]: notions the statements compare the code with
      (tokens, header names, times of last use).

    Conventions.  A [char *] that holds text is a [string] (the characters
    before the terminating NUL); a [char *] that may be [NULL] is an
    [option string].  An [int] is a [Z] and every arithmetic operation on an
    [int] is wrapped to 32 bits by [int_wrap].  A dereference of [NULL], and a
    [strcpy] that writes past the end of the block it was given, is the
    outcome [Crash]: what the program does from there on is not described. *)

From Stdlib Require Import ZArith List Bool Lia.
From Stdlib Require Import Sorting.Permutation Sorting.Sorted.
From Stdlib Require Import Strings.String Strings.Ascii Strings.Byte.
Import ListNotations.

Local Open Scope Z_scope.
Local Open Scope string_scope.

(** ** Outcomes of code that may dereference [NULL] or loop *)

Inductive result (A : Type) : Type :=
| Ok (a : A)       (* normal return *)
| Crash            (* fault: NULL dereference, or a write past a heap block *)
| OutOfFuel.       (* the loop bound of the model was exhausted *)

Arguments Ok {A} a.
Arguments Crash {A}.
Arguments OutOfFuel {A}.

Definition bind {A B} (r : result A) (k : A -> result B) : result B :=
  match r with
  | Ok a => k a
  | Crash => Crash
  | OutOfFuel => OutOfFuel
  end.

Notation "x <- r ;; k" := (bind r (fun x => k))
  (at level 61, r at next level, right associativity).
Notation "' p <- r ;; k" := (bind r (fun p => k))
  (at level 61, p pattern, r at next level, right associativity).

(** ** 32-bit [int] arithmetic *)

Definition INT_MIN : Z := - 2 ^ 31.
Definition INT_MAX : Z := 2 ^ 31 - 1.

Definition int_wrap (z : Z) : Z := (z + 2 ^ 31) mod 2 ^ 32 - 2 ^ 31.

Definition int_add (a b : Z) : Z := int_wrap (a + b).
Definition int_sub (a b : Z) : Z := int_wrap (a - b).

Definition int_range (z : Z) : Prop := INT_MIN <= z <= INT_MAX.

(** ** Constants of the program *)

Definition MAX_CACHE_SIZE : Z := 1049000.
Definition MAX_OBJECT_SIZE : Z := 102400.

Definition CRLF : string := String "013" (String "010" "").

Definition client_res_hdr : string :=
  "User-Agent: Mozilla/5.0 (X11; Linux x86_64; rv:10.0.3) Gecko/20120305 Firefox/10.0.3"
  ++ CRLF ++ "Connection: close" ++ CRLF ++ "Proxy-Connection: close" ++ CRLF ++ CRLF.

Definition bad_request : string :=
  "HTTP/1.0 400 Bad Request" ++ CRLF ++ "Content-Type: plain/text" ++ CRLF
  ++ "Content-Length: 0" ++ CRLF ++ CRLF.

(** ** <string.h> on NUL-free text *)

Module CString.

(** [strchr s c != NULL] *)
Fixpoint strchr (s : string) (c : ascii) : bool :=
  match s with
  | EmptyString => false
  | String a s' => if Ascii.eqb a c then true else strchr s' c
  end.

(** [strcmp a b == 0] *)
Definition strcmp0 (a b : string) : bool := String.eqb a b.

(** [strncmp s lit (strlen lit) == 0]: the first [strlen lit] characters of
    [s] are those of [lit]. *)
Fixpoint strncmp0 (s lit : string) {struct lit} : bool :=
  match lit with
  | EmptyString => true
  | String b lit' =>
      match s with
      | EmptyString => false
      | String a s' => if Ascii.eqb a b then strncmp0 s' lit' else false
      end
  end.

(** [s + n] for [n <= strlen s] *)
Fixpoint drop (n : nat) (s : string) : string :=
  match n with
  | O => s
  | S n' => match s with
            | EmptyString => EmptyString
            | String _ s' => drop n' s'
            end
  end.

(** [strspn]/[strcspn] as splits: the longest prefix of characters that are
    (resp. are not) in [delim], and what follows it. *)
Fixpoint span_delims (delim s : string) : string * string :=
  match s with
  | EmptyString => (EmptyString, EmptyString)
  | String a s' =>
      if strchr delim a
      then let (p, r) := span_delims delim s' in (String a p, r)
      else (EmptyString, s)
  end.

Fixpoint span_token (delim s : string) : string * string :=
  match s with
  | EmptyString => (EmptyString, EmptyString)
  | String a s' =>
      if strchr delim a
      then (EmptyString, s)
      else let (p, r) := span_token delim s' in (String a p, r)
  end.

(** One call of [strtok] scanning from [s] (the first argument, or the saved
    pointer when the first argument is [NULL]).

    The call skips the leading delimiters; if nothing is left it returns
    [NULL] and the saved pointer stays at the end of the text.  Otherwise the
    token runs up to the next delimiter, which is overwritten with NUL, and
    the saved pointer is placed after it (or at the end of the text when the
    token ends there).

    The result is [(skipped, token, saved)].  [skipped] is recorded because
    the caller may still hold the pointer [s] itself: after the call the text
    at [s] reads [skipped ++ token] (see [text_at]). *)
Definition strtok (s delim : string) : string * option string * string :=
  let (skipped, s1) := span_delims delim s in
  match s1 with
  | EmptyString => (skipped, None, EmptyString)
  | String _ _ =>
      let (tok, r) := span_token delim s1 in
      (skipped, Some tok, drop 1 r)
  end.

(** The text read at the pointer that was passed to [strtok], after the call. *)
Definition text_at (skipped : string) (tok : option string) : string :=
  match tok with
  | Some t => skipped ++ t
  | None => skipped
  end.

End CString.

(** ** [check_request_line] *)

Module RequestLine.
Import CString.

Definition supported_version (v : string) : bool :=
  strcmp0 v "HTTP/1.1" || strcmp0 v "HTTP/1.0".

(** Returns [None] for [-1]; for [0] the three out-parameters
    [*method], [*url], [*version].  [*method] and [*url] are whatever
    [strtok] returned, so they are nullable here. *)
Definition check_request_line (reqline : string)
  : option (option string * option string * string) :=
  if negb (strchr reqline " ") then None
  else
    let '(_, method, saved1) := strtok reqline " " in
    let '(_, url, saved2) := strtok saved1 " " in
    let '(_, version, _) := strtok saved2 CRLF in
    match version with
    | None => None
    | Some v =>
        if negb (supported_version v) then None
        else Some (method, url, v)
    end.

End RequestLine.

(** ** [parse_url] *)

Module Url.
Import CString.

(** The last [if] of [parse_url]: [pu] is the result of the test
    [strchr(url, '/') != NULL] made before any [strtok], [saved] the saved
    pointer of [strtok] at that point. *)
Definition uri_of (pu : bool) (saved : string) : string :=
  if negb pu then "/"
  else
    let '(_, rest, _) := strtok saved "" in
    match rest with
    | None => "/"
    | Some r => "/" ++ r
    end.

(** The size of a [char] pointer, which is what [sizeof(url)] at line 265
    yields: 8 on the LP64 platforms the program is built for. *)
Definition PTR_SIZE : nat := 8.

(** [Ok (host, port, uri)], or [Crash] at the [strcpy] into the port buffer
    (line 266): when it is reached with [url == NULL], and when the port with
    its terminating NUL does not fit the [PTR_SIZE] bytes allocated at line
    265.  The other buffers are allocated from the length of what is copied
    into them. *)
Definition parse_url (url0 : string) : result (string * string * string) :=
  let url := if strncmp0 url0 "http://" then drop 7 url0 else url0 in
  let hp := strchr url ":" in
  let pu := strchr url "/" in
  if negb hp then
    let '(skipped, tok, saved) := strtok url "/" in
    let host := text_at skipped tok in
    let port := "80" in
    Ok (host, port, uri_of pu saved)
  else
    let '(skipped, tok, saved) := strtok url ":" in
    let host := text_at skipped tok in
    let '(_, tok2, saved2) := strtok saved "/" in
    match tok2 with
    | None => Crash
    | Some port =>
        if (PTR_SIZE <=? String.length port)%nat then Crash
        else Ok (host, port, uri_of pu saved2)
    end.

End Url.

(** ** The object cache *)

Module Cache.
Import CString.

(** A node of the list other than the head ([struct cacheitem]); the [next]
    pointer is the position in the list below. *)
Record cacheitem : Type := mkItem {
  ci_length : Z;          (* int length *)
  ci_host : string;
  ci_port : string;
  ci_uri : string;
  ci_data : list byte
}.

(** The two globals.  [items] is the chain [cachehead->next], most recently
    used first; [count] is [cachehead->length]. *)
Record cache : Type := mkCache {
  items : list cacheitem;
  count : Z;
  cachesize : Z
}.

(** The state set up by [main]. *)
Definition cache_init : cache := mkCache [] 0 0.

(** The test of line 288. *)
Definition same_request (host port uri : string) (ci : cacheitem) : bool :=
  strcmp0 host (ci_host ci) && strcmp0 port (ci_port ci) && strcmp0 uri (ci_uri ci).

(** The scan of [get_cached_item]: the nodes before the first match, the
    match, and the nodes after it. *)
Fixpoint find_item (host port uri : string) (l : list cacheitem)
  : option (list cacheitem * cacheitem * list cacheitem) :=
  match l with
  | [] => None
  | curr :: rest =>
      if same_request host port uri curr then Some ([], curr, rest)
      else match find_item host port uri rest with
           | Some (before, x, after) => Some (curr :: before, x, after)
           | None => None
           end
  end.

(** [get_cached_item]: the node found (or [NULL]) and the list afterwards;
    a found node is unlinked and relinked behind the head. *)
Definition get_cached_item (c : cache) (host port uri : string)
  : option cacheitem * cache :=
  match find_item host port uri (items c) with
  | Some (before, curr, after) =>
      (Some curr, mkCache (curr :: before ++ after) (count c) (cachesize c))
  | None => (None, c)
  end.

(** The walk of [delete_last_cache] to the node whose [next] is [NULL];
    [None] when [cachehead->next] is itself [NULL]. *)
Fixpoint unlink_last (l : list cacheitem) : option (list cacheitem * cacheitem) :=
  match l with
  | [] => None
  | last :: rest =>
      match unlink_last rest with
      | None => Some ([], last)
      | Some (l', x) => Some (last :: l', x)
      end
  end.

(** [delete_last_cache]; the freed node is returned for the record.  On an
    empty list [last] is [NULL] and [last->next] faults. *)
Definition delete_last_cache (c : cache) : result (cache * cacheitem) :=
  match unlink_last (items c) with
  | None => Crash
  | Some (l, last) =>
      Ok (mkCache l (int_sub (count c) 1) (int_sub (cachesize c) (ci_length last)),
          last)
  end.

(** The loop of lines 193-195, with the nodes it frees in the order they are
    freed. *)
Fixpoint evict (fuel : nat) (c : cache) (len : Z) : result (cache * list cacheitem) :=
  if int_add (cachesize c) len >? MAX_CACHE_SIZE then
    match fuel with
    | O => OutOfFuel
    | S fuel' =>
        ' (c1, x) <- delete_last_cache c ;;
        ' (c2, xs) <- evict fuel' c1 len ;;
        Ok (c2, x :: xs)
    end
  else Ok (c, []).

(** Lines 193-208: evict, then link a new node behind the head.  The loop can
    run at most once per node and once more on the empty list. *)
Definition cache_insert (c : cache) (host port uri : string)
                        (cachebuf : list byte) (len : Z)
  : result (cache * list cacheitem) :=
  ' (c1, freed) <- evict (S (List.length (items c))) c len ;;
  let ci := mkItem len host port uri (firstn (Z.to_nat len) cachebuf) in
  Ok (mkCache (ci :: items c1) (int_add (count c1) 1) (int_add (cachesize c1) len),
      freed).

(** Sequences of cache operations. *)
Inductive cache_op : Type :=
| Lookup (host port uri : string)
| Insert (host port uri : string) (cachebuf : list byte) (len : Z).

Definition step (c : cache) (o : cache_op) : result cache :=
  match o with
  | Lookup h p u => Ok (snd (get_cached_item c h p u))
  | Insert h p u buf len => ' (c', _) <- cache_insert c h p u buf len ;; Ok c'
  end.

Fixpoint run (c : cache) (ops : list cache_op) : result cache :=
  match ops with
  | [] => Ok c
  | o :: ops' => c1 <- step c o ;; run c1 ops'
  end.

(** The length handed to an insertion is a byte count below the ceiling. *)
Definition op_bounded (o : cache_op) : bool :=
  match o with
  | Lookup _ _ _ => true
  | Insert _ _ _ _ len => ((0 <=? len)%Z && (len <? MAX_OBJECT_SIZE)%Z)
  end.

(** Accounting. *)
Fixpoint total_length (l : list cacheitem) : Z :=
  match l with
  | [] => 0
  | ci :: l' => ci_length ci + total_length l'
  end.

Definition item_bounded (ci : cacheitem) : Prop :=
  0 <= ci_length ci < MAX_OBJECT_SIZE.

(** [cachesize] is the sum of the lengths, and every length is a byte count
    below the ceiling. *)
Record consistent (c : cache) : Prop := {
  cons_int : int_range (cachesize c);
  cons_sum : cachesize c = total_length (items c);
  cons_items : Forall item_bounded (items c)
}.

Record cache_inv (c : cache) : Prop := {
  inv_consistent : consistent c;
  inv_budget : cachesize c <= MAX_CACHE_SIZE
}.

Definition count_key (host port uri : string) (l : list cacheitem) : nat :=
  List.length (filter (same_request host port uri) l).

Definition unique_keys (c : cache) : Prop :=
  forall h p u, (count_key h p u (items c) <= 1)%nat.

End Cache.

(** ** The thread routine [proxy] *)

Module Handler.
Import CString RequestLine Url Cache.

(** What one run of [proxy] does to the outside, in program order. *)
Inductive event : Type :=
| ClientWrite (bytes : list byte)   (* rio_writen(connfd, ...) *)
| ServerWrite (text : string)       (* rio_writen(clientfd, ...) *)
| ClientClose                       (* close(connfd) *)
| Free (text : string)              (* free of the host, port or uri buffer *)
| FreeItem (ci : cacheitem)         (* the frees of delete_last_cache *)
| FreeCachebuf.                     (* free(cachebuf) *)

(** What the two sockets deliver to one run.
    [client_lines]: the texts that successive calls of [rio_readlineb] on the
    client socket put in [buf]; a call past the end of the list, or an empty
    text, is a return value of 0.
    [upstream]: [None] when [open_clientfd] fails; otherwise the chunks that
    successive calls of [rio_readnb] on the server socket put in [buf], with
    the same reading of the end of the list and of an empty chunk.
    Read errors (a negative return value) are not part of the model. *)
Record connection : Type := mkConn {
  client_lines : list string;
  upstream : option (list (list byte))
}.

(** The test of line 168: the line is forwarded when all three [strncmp]
    calls are non-zero. *)
Definition forwarded (buf : string) : bool :=
  negb (strncmp0 buf "User-Agent") && negb (strncmp0 buf "Connection")
  && negb (strncmp0 buf "Proxy-Connection").

(** The loop of lines 163-171. *)
Fixpoint forward_headers (lines : list string) : list event :=
  match lines with
  | [] => []
  | buf :: rest =>
      if (String.length buf =? 0)%nat then []
      else if strcmp0 buf CRLF then []
      else if forwarded buf then ServerWrite buf :: forward_headers rest
      else forward_headers rest
  end.

(** The locals [valid], [len] and the bytes copied to [cachebuf] so far
    ([memcpy] writes at offset [len], that is, behind them). *)
Record capture : Type := mkCapture {
  valid : bool;
  len : Z;
  cachebuf : list byte
}.

(** The body of the loop of lines 180-188 without the write. *)
Definition capture_chunk (st : capture) (buf : list byte) : capture :=
  let n := Z.of_nat (List.length buf) in
  if valid st && (int_add (len st) n <? MAX_OBJECT_SIZE)%Z
  then mkCapture true (int_add (len st) n) (cachebuf st ++ buf)
  else if valid st then mkCapture false (len st) (cachebuf st)
  else st.

Fixpoint relay (chunks : list (list byte)) (st : capture) : capture * list event :=
  match chunks with
  | [] => (st, [])
  | buf :: rest =>
      if (List.length buf =? 0)%nat then (st, [])
      else
        let (st', evs) := relay rest (capture_chunk st buf) in
        (st', ClientWrite buf :: evs)
  end.

Definition bad_request_bytes : list byte := list_byte_of_string bad_request.

(** The text [sprintf] leaves in [buf] at line 159.  The arguments [method]
    and [version] point into [buf] itself; the model takes the text the
    format describes. *)
Definition request_line (method uri version : string) : string :=
  method ++ " " ++ uri ++ " " ++ version ++ CRLF.

(** [proxy]: the events of the run and how it ends, [Ok] with the cache it
    leaves behind.  When the run faults inside the insertion block the events
    listed are those up to that block. *)
Definition proxy (c : cache) (conn : connection) : list event * result cache :=
  match client_lines conn with
  | [] => ([ClientWrite bad_request_bytes; ClientClose], Ok c)
  | buf :: headers =>
    if (String.length buf =? 0)%nat
    then ([ClientWrite bad_request_bytes; ClientClose], Ok c)
    else
    match check_request_line buf with
    | None => ([ClientWrite bad_request_bytes; ClientClose], Ok c)
    | Some (method, None, version) => ([], Crash)
    | Some (method, Some url, version) =>
      match parse_url url with
      | Crash => ([], Crash)
      | OutOfFuel => ([], OutOfFuel)
      | Ok (host, port, uri) =>
        match get_cached_item c host port uri with
        | (Some item, c1) =>
            ([ClientWrite (firstn (Z.to_nat (ci_length item)) (ci_data item));
              ClientClose], Ok c1)
        | (None, c1) =>
          match upstream conn with
          | None =>
              ([ClientWrite bad_request_bytes; Free host; Free port; Free uri], Ok c1)
          | Some chunks =>
            match method with
            | None => ([], Crash)
            | Some method =>
              let reqline := request_line method uri version in
              let sent := (ServerWrite reqline :: forward_headers headers
                           ++ [ServerWrite client_res_hdr])%list in
              let (cap, relayed) := relay chunks (mkCapture true 0 []) in
              if valid cap then
                match cache_insert c1 host port uri (cachebuf cap) (len cap) with
                | Ok (c2, freed) =>
                    ((sent ++ relayed ++ map FreeItem freed
                      ++ [ClientClose; FreeCachebuf])%list, Ok c2)
                | Crash => ((sent ++ relayed)%list, Crash)
                | OutOfFuel => ((sent ++ relayed)%list, OutOfFuel)
                end
              else
                ((sent ++ relayed
                  ++ [Free host; Free port; Free uri; ClientClose; FreeCachebuf])%list,
                 Ok c1)
            end
          end
        end
      end
    end
  end.

(** Projections of a trace. *)
Definition client_writes (evs : list event) : list (list byte) :=
  flat_map (fun e => match e with ClientWrite b => [b] | _ => [] end) evs.

Definition server_writes (evs : list event) : list string :=
  flat_map (fun e => match e with ServerWrite t => [t] | _ => [] end) evs.

Definition is_close (e : event) : bool :=
  match e with ClientClose => true | _ => false end.

End Handler.

(** ** The wording of the specification

    Definitions that follow the words of the specification rather than the
    code, for the statements that compare the two. *)

Module Wording.
Import CString.

(** The characters C's [isspace] accepts: space, TAB, LF, VT, FF, CR. *)
Definition whitespace : string :=
  String " " (String "009" (String "010" (String "011" (String "012" (String "013" ""))))).

(** The pieces of [s] between characters of [delim], empty pieces included. *)
Fixpoint fields (delim s : string) : list string :=
  match s with
  | EmptyString => [EmptyString]
  | String a s' =>
      if strchr delim a then EmptyString :: fields delim s'
      else match fields delim s' with
           | [] => [String a EmptyString]
           | f :: fs => String a f :: fs
           end
  end.

(** The [delim]-separated tokens of [s]: its non-empty fields. *)
Definition tokens (delim s : string) : list string :=
  filter (fun f => negb (String.eqb f "")) (fields delim s).

(** [s] contains no character of [delim]. *)
Fixpoint no_delim (delim s : string) : bool :=
  match s with
  | EmptyString => true
  | String a s' => negb (strchr delim a) && no_delim delim s'
  end.

(** [s] consists of characters of [delim] only. *)
Fixpoint all_delim (delim s : string) : bool :=
  match s with
  | EmptyString => true
  | String a s' => strchr delim a && all_delim delim s'
  end.

(** [s] is a token with respect to [delim]: not empty, no delimiter in it. *)
Definition is_token (delim s : string) : bool :=
  negb (String.eqb s "") && no_delim delim s.

(** [t] can follow a token: it is empty or starts with a delimiter. *)
Definition ends_token (delim t : string) : bool :=
  match t with
  | EmptyString => true
  | String a _ => strchr delim a
  end.

(** The field name of a header line: the text before its first colon. *)
Definition header_name (line : string) : string := fst (span_token ":" line).

(** The line is a User-Agent, Connection or Proxy-Connection header. *)
Definition replaced_header (line : string) : bool :=
  let n := header_name line in
  String.eqb n "User-Agent" || String.eqb n "Connection"
  || String.eqb n "Proxy-Connection".

(** The header lines of a request: the lines before the blank line (or before
    the end of the input). *)
Fixpoint header_block (lines : list string) : list string :=
  match lines with
  | [] => []
  | l :: rest =>
      if String.eqb l "" || String.eqb l CRLF then []
      else l :: header_block rest
  end.

(** A chunk as [rio_readnb] with a buffer of [maxline] bytes returns it. *)
Definition chunk_ok (maxline : Z) (buf : list byte) : bool :=
  (0 <? Z.of_nat (List.length buf))%Z && (Z.of_nat (List.length buf) <=? maxline)%Z.

(** Every chunk the server socket delivers on this connection is one. *)
Definition connection_ok (maxline : Z) (conn : Handler.connection) : bool :=
  match Handler.upstream conn with
  | None => true
  | Some chunks => forallb (chunk_ok maxline) chunks
  end.

Fixpoint total_bytes (chunks : list (list byte)) : Z :=
  match chunks with
  | [] => 0
  | buf :: rest => Z.of_nat (List.length buf) + total_bytes rest
  end.

(** The [length] field of a node is the number of bytes its [data] holds. *)
Definition data_sound (ci : Cache.cacheitem) : Prop :=
  Cache.ci_length ci = Z.of_nat (List.length (Cache.ci_data ci)).

End Wording.

(** ** Recency

    What "least recently used" means, said without reference to the order
    of the list: every entry of the cache carries the time of its last use,
    and the operations are described by what they do to these times. *)

Module Recency.
Import Cache.

(** An entry with the time of its last use: the position, in the sequence of
    operations, of the operation that inserted it or of the last lookup that
    returned it. *)
Definition stamped : Type := (nat * cacheitem)%type.

Definition newer (a b : stamped) : Prop := (fst b < fst a)%nat.
Definition older (a b : stamped) : Prop := (fst a < fst b)%nat.

Definition log_size (L : list stamped) : Z := total_length (map snd L).

(** [last_use_log t L ops L']: the cache holds the entries of [L], with
    their times of last use, when the operations [ops] start at time [t];
    it holds those of [L'] when they are done.  The order of the lists plays
    no part (they are taken up to permutation).
    - A lookup of a key that no entry has changes nothing.
    - A lookup of a key that some entry has uses the most recently used entry
      with that key: its time becomes [t].
    - An insertion evicts the set [F] of the least recently used entries,
      every one of them older than every entry [K] it keeps, just large
      enough for the rest and the new entry to fit the budget (with the
      youngest of [F] kept they would not), and adds the new entry with
      time [t]. *)
Inductive last_use_log : nat -> list stamped -> list cache_op -> list stamped -> Prop :=
| log_done t L :
    last_use_log t L [] L
| log_lookup_miss t L h p u ops L' :
    (forall e, In e L -> same_request h p u (snd e) = false) ->
    last_use_log (S t) L ops L' ->
    last_use_log t L (Lookup h p u :: ops) L'
| log_lookup_hit t L h p u s x R L1 ops L' :
    Permutation L ((s, x) :: R) ->
    same_request h p u x = true ->
    (forall e, In e R -> same_request h p u (snd e) = true -> (fst e < s)%nat) ->
    Permutation L1 ((t, x) :: R) ->
    last_use_log (S t) L1 ops L' ->
    last_use_log t L (Lookup h p u :: ops) L'
| log_insert t L h p u buf len K F L1 ops L' :
    Permutation L (K ++ F) ->
    (forall f k, In f F -> In k K -> older f k) ->
    log_size K + len <= MAX_CACHE_SIZE ->
    (forall y, In y F -> (forall f, In f F -> (fst f <= fst y)%nat) ->
               log_size K + ci_length (snd y) + len > MAX_CACHE_SIZE) ->
    Permutation L1 ((t, mkItem len h p u (firstn (Z.to_nat len) buf)) :: K) ->
    last_use_log (S t) L1 ops L' ->
    last_use_log t L (Insert h p u buf len :: ops) L'.

(** The list of the cache is the log in the order of last use, most recent
    first, and every time in it lies before [t]. *)
Record log_inv (t : nat) (c : cache) (L : list stamped) : Prop := {
  log_items : map snd L = items c;
  log_sorted : StronglySorted newer L;
  log_past : forall e, In e L -> (fst e < t)%nat
}.

End Recency.

(** ** Sample inputs *)

Module Samples.
Import Cache Handler.

(** Ten objects of 100,000 bytes under ten keys. *)
Definition ten_objects : list cache_op :=
  map (fun k => Insert "origin" "9000" k [] 100000)
      ["/0"; "/1"; "/2"; "/3"; "/4"; "/5"; "/6"; "/7"; "/8"; "/9"].


Definition one_entry_cache : cache :=
  mkCache [mkItem 3 "example.com" "80" "/" [x61; x62; x63]] 1 3.



(** Ten insertions, then a lookup of the oldest of the ten entries. *)
Definition ten_objects_and_lookup : list cache_op :=
  (ten_objects ++ [Lookup "origin" "9000" "/0"])%list.

(** The cache operations of two handlers serving [http://example.com/] at
    the same time, in an order in which both lookups come first. *)
Definition racing_handlers : list cache_op :=
  [Lookup "example.com" "80" "/";
   Lookup "example.com" "80" "/";
   Insert "example.com" "80" "/" [x61; x62; x63] 3;
   Insert "example.com" "80" "/" [x61; x62; x63] 3].

(** A request for [http://example.com/] on a connection whose upstream
    connect fails. *)
Definition refused_connection : connection :=
  mkConn ["GET http://example.com/ HTTP/1.1" ++ CRLF; "Host: example.com" ++ CRLF; CRLF]
         None.

(** A request whose headers include the three the proxy replaces and one
    whose name only starts like one of them. *)
Definition sample_headers : list string :=
  ["Host: origin:9000" ++ CRLF;
   "User-Agent: x" ++ CRLF;
   "Connection-Timeout: 5" ++ CRLF;
   "Accept: text/html" ++ CRLF;
   "Proxy-Connection: keep-alive" ++ CRLF;
   CRLF;
   "ignored" ++ CRLF].

(** The same request with a User-Agent header in lower case only. *)
Definition lowercase_request : connection :=
  mkConn ["GET http://origin:9000/page HTTP/1.1" ++ CRLF; "user-agent: x" ++ CRLF; CRLF]
         (Some [[x2a]]).

Definition sample_request (chunks : list (list byte)) : connection :=
  mkConn (("GET http://origin:9000/page HTTP/1.1" ++ CRLF) :: sample_headers)
         (Some chunks).

(** Thirteen chunks of 8192 bytes: 106,496 bytes in all. *)
Definition large_response : list (list byte) := repeat (repeat x2a (Z.to_nat 8192)) 13.

(** A response of three bytes in two chunks. *)
Definition small_response : list (list byte) := [[x68; x69]; [x21]].

(** Two entries, the older one last. *)
Definition two_entry_cache : cache :=
  mkCache [mkItem 2 "b.example" "80" "/" [x68; x69];
           mkItem 3 "example.com" "80" "/" [x61; x62; x63]] 2 5.

(** TAB SP TAB SP CR HTTP/1.1 CR LF *)
Definition tab_line : string :=
  String "009" (" " ++ String "009" (" " ++ String "013" ("HTTP/1.1" ++ CRLF))).

End Samples.

Import CString RequestLine Url Cache Handler Wording Recency Samples.

(** * Properties *)

(** ** Arithmetic on [int] *)

Lemma int_wrap_small (z : Z) : int_range z -> int_wrap z = z.
Proof.
  unfold int_range, INT_MIN, INT_MAX, int_wrap. intros H.
  rewrite Z.mod_small; lia.
Qed.

Lemma int_add_small (a b : Z) : int_range (a + b) -> int_add a b = a + b.
Proof. apply int_wrap_small. Qed.

Lemma int_sub_small (a b : Z) : int_range (a - b) -> int_sub a b = a - b.
Proof. apply int_wrap_small. Qed.

Lemma gtb_false (a b : Z) : (a >? b) = false -> a <= b.
Proof. rewrite Z.gtb_ltb, Z.ltb_ge. auto. Qed.

Lemma gtb_true (a b : Z) : (a >? b) = true -> a > b.
Proof. rewrite Z.gtb_ltb, Z.ltb_lt. lia. Qed.

(** ** The list walks of the cache *)

Section CacheWalks.

Lemma unlink_last_none (l : list cacheitem) : unlink_last l = None <-> l = [].
Proof.
  destruct l as [|a l]; simpl; [tauto|].
  destruct (unlink_last l) as [[l' x]|]; split; discriminate.
Qed.

Lemma unlink_last_some (l l' : list cacheitem) (x : cacheitem) :
  unlink_last l = Some (l', x) <-> l = (l' ++ [x])%list.
Proof.
  revert l' x. induction l as [|a l IH]; intros l' x; simpl.
  - split; [discriminate|]. destruct l'; discriminate.
  - destruct (unlink_last l) as [[l1 y]|] eqn:E.
    + destruct (IH l1 y) as [IH1 _]. specialize (IH1 eq_refl). subst l. split.
      * intros H; inversion H; subst. reflexivity.
      * intros H. destruct l' as [|b l'].
        { destruct l1; discriminate. }
        simpl in H. inversion H as [[Ha Hl]]. subst b.
        apply app_inj_tail in Hl. destruct Hl; subst. reflexivity.
    + apply unlink_last_none in E. subst l. split.
      * intros H; inversion H; subst. reflexivity.
      * intros H. destruct l' as [|b l'].
        { inversion H; subst. reflexivity. }
        inversion H as [[Ha Hl]]. destruct l'; discriminate.
Qed.

Lemma total_length_app (l1 l2 : list cacheitem) :
  total_length (l1 ++ l2) = total_length l1 + total_length l2.
Proof. induction l1; simpl; lia. Qed.

Lemma total_length_nonneg (l : list cacheitem) :
  Forall item_bounded l -> 0 <= total_length l.
Proof.
  induction 1 as [|x l Hx _ IH]; simpl; [lia|]. unfold item_bounded in Hx. lia.
Qed.

Lemma find_item_some host port uri (l before after : list cacheitem) (x : cacheitem) :
  find_item host port uri l = Some (before, x, after) ->
  l = (before ++ x :: after)%list
  /\ same_request host port uri x = true
  /\ forallb (fun ci => negb (same_request host port uri ci)) before = true.
Proof.
  revert before. induction l as [|a l IH]; intros before; simpl; [discriminate|].
  destruct (same_request host port uri a) eqn:E.
  - intros H; inversion H; subst. auto.
  - destruct (find_item host port uri l) as [[[b y] r]|]; [|discriminate].
    intros H; inversion H; subst. destruct (IH b eq_refl) as (-> & Hy & Hb).
    simpl. rewrite E. auto.
Qed.

Lemma find_item_none host port uri (l : list cacheitem) :
  find_item host port uri l = None <-> count_key host port uri l = 0%nat.
Proof.
  unfold count_key. induction l as [|a l IH]; simpl; [tauto|].
  destruct (same_request host port uri a); simpl.
  - split; discriminate.
  - destruct (find_item host port uri l) as [[[b y] r]|].
    + split; [discriminate|]. intros H. apply IH in H. discriminate.
    + tauto.
Qed.

Lemma count_key_app host port uri (l1 l2 : list cacheitem) :
  count_key host port uri (l1 ++ l2) =
  (count_key host port uri l1 + count_key host port uri l2)%nat.
Proof. unfold count_key. rewrite filter_app, length_app. reflexivity. Qed.

Lemma count_key_cons host port uri (x : cacheitem) (l : list cacheitem) :
  count_key host port uri (x :: l) =
  ((if same_request host port uri x then 1 else 0) + count_key host port uri l)%nat.
Proof. unfold count_key. simpl. destruct (same_request host port uri x); reflexivity. Qed.

Lemma same_request_refl h p u len d :
  same_request h p u (mkItem len h p u d) = true.
Proof. unfold same_request, strcmp0. simpl. rewrite !String.eqb_refl. reflexivity. Qed.

Lemma same_request_key h p u h' p' u' len d :
  same_request h' p' u' (mkItem len h p u d) = true -> h' = h /\ p' = p /\ u' = u.
Proof.
  unfold same_request, strcmp0. simpl. intros H.
  apply andb_true_iff in H. destruct H as [H Hu].
  apply andb_true_iff in H. destruct H as [Hh Hp].
  apply String.eqb_eq in Hh, Hp, Hu. auto.
Qed.

End CacheWalks.

(** ** Eviction *)

Section Eviction.

Lemma delete_last_cache_crash (c : cache) :
  delete_last_cache c = Crash <-> items c = [].
Proof.
  unfold delete_last_cache. rewrite <- unlink_last_none.
  destruct (unlink_last (items c)) as [[l x]|]; split; congruence.
Qed.

Lemma delete_last_cache_ok (c c1 : cache) (x : cacheitem) :
  delete_last_cache c = Ok (c1, x) ->
  items c = (items c1 ++ [x])%list
  /\ cachesize c1 = int_sub (cachesize c) (ci_length x).
Proof.
  unfold delete_last_cache.
  destruct (unlink_last (items c)) as [[l y]|] eqn:E; [|discriminate].
  intros H; inversion H; subst; simpl. apply unlink_last_some in E. auto.
Qed.

Lemma delete_last_cache_consistent (c c1 : cache) (x : cacheitem) :
  consistent c -> delete_last_cache c = Ok (c1, x) ->
  consistent c1 /\ cachesize c1 = cachesize c - ci_length x /\ item_bounded x.
Proof.
  intros [Hint Hsum Hit] H. apply delete_last_cache_ok in H. destruct H as [Hl Hs].
  rewrite Hl in Hit, Hsum. apply Forall_app in Hit. destruct Hit as [Hit1 Hx].
  inversion Hx as [|? ? Hbx _]; subst.
  rewrite total_length_app in Hsum. simpl in Hsum.
  pose proof (total_length_nonneg _ Hit1) as Hnn.
  assert (Hb := Hbx). unfold item_bounded in Hb.
  assert (Hr : int_range (cachesize c - ci_length x)).
  { unfold int_range, INT_MIN, INT_MAX in *. lia. }
  rewrite (int_sub_small _ _ Hr) in Hs.
  split; [constructor; [rewrite Hs; exact Hr | lia | exact Hit1]|].
  split; [exact Hs | exact Hbx].
Qed.

Lemma evict_fuel (fuel : nat) (c : cache) (len : Z) :
  (List.length (items c) < fuel)%nat -> evict fuel c len <> OutOfFuel.
Proof.
  revert c. induction fuel as [|f IH]; intros c Hf; [inversion Hf|].
  simpl. destruct (int_add (cachesize c) len >? MAX_CACHE_SIZE); [|discriminate].
  destruct (delete_last_cache c) as [[c1 x]| |] eqn:E; simpl; try discriminate.
  - apply delete_last_cache_ok in E. destruct E as [El _].
    rewrite El, length_app in Hf. simpl in Hf.
    assert (Hf1 : (List.length (items c1) < f)%nat) by lia.
    specialize (IH c1 Hf1).
    destruct (evict f c1 len) as [[c2 xs]| |]; simpl; congruence.
  - unfold delete_last_cache in E.
    destruct (unlink_last (items c)) as [[? ?]|]; discriminate.
Qed.

(** The loop on a consistent cache: it never faults, and what it returns. *)
Lemma evict_consistent (fuel : nat) (c : cache) (len : Z) :
  consistent c -> 0 <= len < MAX_OBJECT_SIZE ->
  evict fuel c len <> Crash
  /\ forall c' freed, evict fuel c len = Ok (c', freed) ->
       consistent c'
       /\ items c = (items c' ++ rev freed)%list
       /\ Forall item_bounded freed
       /\ int_add (cachesize c') len <= MAX_CACHE_SIZE
       /\ forall fr y, freed = (fr ++ [y])%list ->
            int_add (total_length (items c' ++ [y])) len > MAX_CACHE_SIZE.
Proof.
  intros Hc Hlen. revert c Hc.
  assert (Hstop : forall c, consistent c ->
            (int_add (cachesize c) len >? MAX_CACHE_SIZE) = false ->
            forall c' freed, Ok (c, @nil cacheitem) = Ok (c', freed) ->
              consistent c'
              /\ items c = (items c' ++ rev freed)%list
              /\ Forall item_bounded freed
              /\ int_add (cachesize c') len <= MAX_CACHE_SIZE
              /\ forall fr y, freed = (fr ++ [y])%list ->
                   int_add (total_length (items c' ++ [y])) len > MAX_CACHE_SIZE).
  { intros c Hc G c' freed H; inversion H; subst. simpl. rewrite app_nil_r.
    refine (conj Hc (conj eq_refl (conj (Forall_nil _) (conj (gtb_false _ _ G) _)))).
    intros fr y Hfr. destruct fr; discriminate. }
  induction fuel as [|f IH]; intros c Hc; simpl.
  - destruct (int_add (cachesize c) len >? MAX_CACHE_SIZE) eqn:G.
    + split; discriminate.
    + split; [discriminate|]. apply Hstop; assumption.
  - destruct (int_add (cachesize c) len >? MAX_CACHE_SIZE) eqn:G.
    2:{ split; [discriminate|]. apply Hstop; assumption. }
    destruct (delete_last_cache c) as [[c1 x]| |] eqn:E; simpl.
    + pose proof (delete_last_cache_ok _ _ _ E) as [El _].
      destruct (delete_last_cache_consistent _ _ _ Hc E) as (Hc1 & Hs1 & Hx).
      destruct (IH c1 Hc1) as [Hnc Hok].
      destruct (evict f c1 len) as [[c2 xs]| |] eqn:E2; simpl.
      * split; [discriminate|]. intros c' freed H; inversion H; subst.
        destruct (Hok c' xs eq_refl) as (Hc' & Hl' & Hfx & Hg & Hmin).
        refine (conj Hc' (conj _ (conj (Forall_cons _ Hx Hfx) (conj Hg _)))).
        { rewrite El, Hl'. simpl. rewrite app_assoc. reflexivity. }
        intros fr y Hfr. destruct xs as [|x2 xs].
        { destruct fr as [|? fr]; [|destruct fr; discriminate].
          inversion Hfr; subst y. simpl in Hl'. rewrite app_nil_r in Hl'.
          rewrite <- Hl', <- El, <- (cons_sum _ Hc).
          apply gtb_true, G. }
        destruct fr as [|z fr]; [discriminate|].
        inversion Hfr; subst. eapply Hmin. eassumption.
      * split; [congruence|discriminate].
      * split; discriminate.
    + exfalso. apply delete_last_cache_crash in E.
      rewrite (cons_sum _ Hc), E in G. simpl in G.
      rewrite int_add_small in G.
      * apply gtb_true in G. unfold MAX_CACHE_SIZE, MAX_OBJECT_SIZE in *. lia.
      * unfold int_range, INT_MIN, INT_MAX, MAX_OBJECT_SIZE in *. lia.
    + unfold delete_last_cache in E.
      destruct (unlink_last (items c)) as [[? ?]|]; discriminate.
Qed.

End Eviction.

(** ** Insertion and lookup keep the accounting *)

Section CacheInvariant.

Lemma total_length_rev (l : list cacheitem) : total_length (rev l) = total_length l.
Proof.
  induction l as [|a l IH]; simpl; [reflexivity|].
  rewrite total_length_app, IH. simpl. lia.
Qed.

Lemma cache_init_inv : cache_inv cache_init.
Proof.
  split; [split|]; simpl.
  - unfold int_range, INT_MIN, INT_MAX. lia.
  - reflexivity.
  - constructor.
  - unfold MAX_CACHE_SIZE. lia.
Qed.

Lemma cache_insert_returns (c : cache) h p u buf (len : Z) :
  consistent c -> 0 <= len < MAX_OBJECT_SIZE ->
  exists c' freed, cache_insert c h p u buf len = Ok (c', freed).
Proof.
  intros Hc Hlen. unfold cache_insert.
  destruct (evict_consistent (S (List.length (items c))) c len Hc Hlen) as [Hnc _].
  pose proof (evict_fuel (S (List.length (items c))) c len (Nat.lt_succ_diag_r _)) as Hnf.
  destruct (evict _ c len) as [[c1 freed]| |]; simpl; try congruence.
  eauto.
Qed.

Lemma cache_insert_inv (c : cache) h p u buf (len : Z) :
  cache_inv c -> 0 <= len < MAX_OBJECT_SIZE ->
  exists c' kept freed,
    cache_insert c h p u buf len = Ok (c', freed)
    /\ items c = (kept ++ rev freed)%list
    /\ items c' = mkItem len h p u (firstn (Z.to_nat len) buf) :: kept
    /\ cache_inv c'
    /\ forall fr y, freed = (fr ++ [y])%list ->
         total_length (kept ++ [y]) + len > MAX_CACHE_SIZE.
Proof.
  intros [Hc Hb] Hlen. unfold cache_insert.
  destruct (evict_consistent (S (List.length (items c))) c len Hc Hlen) as [Hnc Hok].
  pose proof (evict_fuel (S (List.length (items c))) c len (Nat.lt_succ_diag_r _)) as Hnf.
  destruct (evict _ c len) as [[c1 freed]| |]; simpl; try congruence.
  destruct (Hok c1 freed eq_refl) as (Hc1 & Hl & Hfr & Hg & Hmin). clear Hok Hnc Hnf.
  pose proof (cons_sum _ Hc) as Hs. pose proof (cons_sum _ Hc1) as Hs1.
  pose proof (total_length_nonneg _ (cons_items _ Hc1)) as Hnn1.
  assert (Hle : total_length (items c1) <= cachesize c).
  { rewrite Hs, Hl, total_length_app, total_length_rev.
    pose proof (total_length_nonneg _ Hfr). lia. }
  assert (Hr : int_range (cachesize c1 + len)).
  { unfold int_range, INT_MIN, INT_MAX, MAX_CACHE_SIZE, MAX_OBJECT_SIZE in *. lia. }
  rewrite (int_add_small _ _ Hr) in *.
  exists (mkCache (mkItem len h p u (firstn (Z.to_nat len) buf) :: items c1)
                  (int_add (count c1) 1) (cachesize c1 + len)), (items c1), freed.
  refine (conj eq_refl (conj Hl (conj eq_refl (conj _ _)))).
  - split; [split|]; simpl.
    + exact Hr.
    + lia.
    + constructor; [exact Hlen | exact (cons_items _ Hc1)].
    + exact Hg.
  - intros fr y Hy. specialize (Hmin fr y Hy).
    rewrite int_add_small in Hmin; [exact Hmin|].
    assert (total_length (items c1 ++ [y]) <= cachesize c).
    { rewrite Hs, Hl, Hy, rev_app_distr. simpl.
      rewrite !total_length_app. simpl. rewrite total_length_rev.
      rewrite Hy in Hfr. apply Forall_app in Hfr. destruct Hfr as [Hfr _].
      pose proof (total_length_nonneg _ Hfr). lia. }
    rewrite total_length_app in *. simpl in *.
    rewrite Hy in Hfr. apply Forall_app in Hfr. destruct Hfr as [_ Hy'].
    inversion Hy' as [|? ? Hyb _]; subst. unfold item_bounded in Hyb.
    unfold int_range, INT_MIN, INT_MAX, MAX_CACHE_SIZE, MAX_OBJECT_SIZE in *. lia.
Qed.

Lemma get_cached_item_items (c : cache) h p u :
  match get_cached_item c h p u with
  | (Some x, c') =>
      exists before after,
        items c = (before ++ x :: after)%list
        /\ items c' = (x :: before ++ after)%list
        /\ same_request h p u x = true
        /\ cachesize c' = cachesize c
  | (None, c') => c' = c /\ count_key h p u (items c) = 0%nat
  end.
Proof.
  unfold get_cached_item.
  destruct (find_item h p u (items c)) as [[[b x] a]|] eqn:E.
  - apply find_item_some in E. destruct E as (E & Hx & _).
    exists b, a. simpl. auto.
  - apply find_item_none in E. auto.
Qed.

Lemma get_cached_item_inv (c : cache) h p u :
  cache_inv c -> cache_inv (snd (get_cached_item c h p u)).
Proof.
  intros Hinv. pose proof (get_cached_item_items c h p u) as H.
  destruct (get_cached_item c h p u) as [[x|] c']; simpl.
  - destruct H as (b & a & Hl & Hl' & _ & Hs).
    destruct Hinv as [[Hi Hsum Hit] Hb].
    split; [split|]; rewrite ?Hs; auto.
    + rewrite Hsum, Hl, Hl'. simpl. rewrite !total_length_app. simpl. lia.
    + rewrite Hl'. rewrite Hl in Hit. apply Forall_app in Hit. destruct Hit as [H1 H2].
      inversion H2; subst. constructor; [assumption|]. apply Forall_app; auto.
  - destruct H as [-> _]. exact Hinv.
Qed.

Lemma get_cached_item_count (c : cache) h p u h' p' u' :
  count_key h' p' u' (items (snd (get_cached_item c h p u)))
  = count_key h' p' u' (items c).
Proof.
  pose proof (get_cached_item_items c h p u) as H.
  destruct (get_cached_item c h p u) as [[x|] c']; simpl.
  - destruct H as (b & a & Hl & Hl' & _). rewrite Hl, Hl'.
    rewrite count_key_cons, !count_key_app, count_key_cons. lia.
  - destruct H as [-> _]. reflexivity.
Qed.

Lemma step_inv (c : cache) (o : cache_op) :
  cache_inv c -> op_bounded o = true ->
  exists c', step c o = Ok c' /\ cache_inv c'.
Proof.
  intros Hinv Ho. destruct o as [h p u|h p u buf len]; simpl.
  - eexists; split; [reflexivity|]. apply get_cached_item_inv, Hinv.
  - simpl in Ho. apply andb_true_iff in Ho. destruct Ho as [H0 H1].
    apply Z.leb_le in H0. apply Z.ltb_lt in H1.
    destruct (cache_insert_inv c h p u buf len Hinv (conj H0 H1))
      as (c' & kept & freed & E & _ & _ & Hinv' & _).
    rewrite E. simpl. eauto.
Qed.

Lemma run_inv (ops : list cache_op) (c : cache) :
  cache_inv c -> forallb op_bounded ops = true ->
  exists c', run c ops = Ok c' /\ cache_inv c'.
Proof.
  revert c. induction ops as [|o ops IH]; intros c Hinv Hops; simpl.
  - eauto.
  - simpl in Hops. apply andb_true_iff in Hops. destruct Hops as [Ho Hops].
    destruct (step_inv c o Hinv Ho) as (c1 & E & Hinv1). rewrite E. simpl.
    apply IH; assumption.
Qed.

End CacheInvariant.

(** ** The cache claims *)

Section RecencyOrder.

Lemma ss_app_inv {A : Type} (R : A -> A -> Prop) (a b : list A) :
  StronglySorted R (a ++ b) ->
  StronglySorted R a /\ StronglySorted R b
  /\ forall x y, In x a -> In y b -> R x y.
Proof.
  induction a as [|z a IH]; simpl; intros H.
  - split; [constructor|]. split; [exact H|]. intros x y [].
  - apply StronglySorted_inv in H. destruct H as [Hs Hf].
    destruct (IH Hs) as (Ha & Hb & Hab).
    rewrite Forall_app in Hf. destruct Hf as [Hfa Hfb].
    split; [constructor; assumption|]. split; [exact Hb|].
    intros x y [<-|Hx] Hy.
    + rewrite Forall_forall in Hfb. apply Hfb, Hy.
    + apply Hab; assumption.
Qed.

Lemma ss_app {A : Type} (R : A -> A -> Prop) (a b : list A) :
  StronglySorted R a -> StronglySorted R b ->
  (forall x y, In x a -> In y b -> R x y) ->
  StronglySorted R (a ++ b).
Proof.
  intros Ha Hb Hab. induction a as [|z a IH]; simpl; [exact Hb|].
  apply StronglySorted_inv in Ha. destruct Ha as [Ha Hz].
  constructor.
  - apply IH; [exact Ha|]. intros x y Hx Hy. apply Hab; [right; exact Hx|exact Hy].
  - apply Forall_app. split; [exact Hz|].
    apply Forall_forall. intros y Hy. apply Hab; [left; reflexivity|exact Hy].
Qed.

Lemma ss_rev {A : Type} (R : A -> A -> Prop) (l : list A) :
  StronglySorted R l -> StronglySorted (fun a b => R b a) (rev l).
Proof.
  induction 1 as [|a l Hs IH Hf]; simpl; [constructor|].
  apply ss_app; [exact IH | repeat constructor |].
  intros x y Hx [<-|[]]. apply in_rev in Hx.
  rewrite Forall_forall in Hf. apply Hf, Hx.
Qed.

Lemma count_key_zero h p u (l : list cacheitem) :
  count_key h p u l = 0%nat -> forall x, In x l -> same_request h p u x = false.
Proof.
  unfold count_key. induction l as [|a l IH]; simpl; [intros _ x []|].
  destruct (same_request h p u a) eqn:E; simpl; [discriminate|].
  intros H x [<-|Hx]; [exact E|apply IH; assumption].
Qed.

Lemma log_inv_init : log_inv 0 cache_init [].
Proof. split; [reflexivity | constructor | intros e []]. Qed.

Lemma lookup_log (t : nat) (c : cache) (L : list stamped) h p u :
  log_inv t c L ->
  exists L1,
    log_inv (S t) (snd (get_cached_item c h p u)) L1
    /\ forall ops L', last_use_log (S t) L1 ops L' ->
                      last_use_log t L (Lookup h p u :: ops) L'.
Proof.
  intros [Hmap Hsort Hpast]. unfold get_cached_item.
  destruct (find_item h p u (items c)) as [[[b x] a]|] eqn:E; simpl.
  - apply find_item_some in E. destruct E as (Hl & Hx & Hb).
    rewrite Hl in Hmap. apply map_eq_app in Hmap.
    destruct Hmap as (Lb & L2 & -> & Hmb & Hm2).
    apply map_eq_cons in Hm2. destruct Hm2 as ([s x'] & La & -> & Hsx & Hma).
    simpl in Hsx. subst x'.
    destruct (ss_app_inv _ _ _ Hsort) as (Sb & S2 & Hcross).
    apply StronglySorted_inv in S2. destruct S2 as [Sa Hsa].
    exists ((t, x) :: Lb ++ La). split; [split|].
    + simpl. rewrite map_app, Hmb, Hma. reflexivity.
    + constructor.
      * apply ss_app; [exact Sb | exact Sa |].
        intros e1 e2 H1 H2. apply Hcross; [exact H1|right; exact H2].
      * apply Forall_forall. intros e He. unfold newer. simpl.
        apply Hpast. apply in_app_or in He. apply in_or_app.
        destruct He as [He|He]; [left; exact He|right; right; exact He].
    + intros e [<-|He]; simpl; [lia|].
      assert (fst e < t)%nat; [|lia].
      apply Hpast. apply in_app_or in He. apply in_or_app.
      destruct He as [He|He]; [left; exact He|right; right; exact He].
    + intros ops L' Hlog.
      apply (log_lookup_hit t (Lb ++ (s, x) :: La) h p u s x (Lb ++ La)
               ((t, x) :: Lb ++ La) ops L').
      * apply Permutation_sym, Permutation_middle.
      * exact Hx.
      * intros e He Hk. apply in_app_or in He. destruct He as [He|He].
        { exfalso. rewrite forallb_forall in Hb.
          assert (Hin : In (snd e) b) by (rewrite <- Hmb; apply in_map, He).
          specialize (Hb _ Hin). rewrite Hk in Hb. discriminate. }
        { rewrite Forall_forall in Hsa. apply (Hsa e He). }
      * apply Permutation_refl.
      * exact Hlog.
  - apply find_item_none in E. exists L. split; [split|].
    + exact Hmap.
    + exact Hsort.
    + intros e He. specialize (Hpast e He). lia.
    + intros ops L' Hlog. apply log_lookup_miss; [|exact Hlog].
      intros e He. apply (count_key_zero _ _ _ _ E).
      rewrite <- Hmap. apply in_map, He.
Qed.

Lemma insert_log (t : nat) (c : cache) (L : list stamped) h p u buf (len : Z) :
  cache_inv c -> log_inv t c L -> 0 <= len < MAX_OBJECT_SIZE ->
  exists c' kept freed LK LF,
    cache_insert c h p u buf len = Ok (c', freed)
    /\ items c = (kept ++ rev freed)%list
    /\ items c' = mkItem len h p u (firstn (Z.to_nat len) buf) :: kept
    /\ cache_inv c'
    /\ (forall fr y, freed = (fr ++ [y])%list ->
          total_length (kept ++ [y]) + len > MAX_CACHE_SIZE)
    /\ L = (LK ++ rev LF)%list /\ map snd LK = kept /\ map snd LF = freed
    /\ (forall f k, In f LF -> In k LK -> older f k)
    /\ StronglySorted older LF
    /\ log_inv (S t) c' ((t, mkItem len h p u (firstn (Z.to_nat len) buf)) :: LK)
    /\ forall ops L',
         last_use_log (S t)
           ((t, mkItem len h p u (firstn (Z.to_nat len) buf)) :: LK) ops L' ->
         last_use_log t L (Insert h p u buf len :: ops) L'.
Proof.
  intros Hinv [Hmap Hsort Hpast] Hlen.
  destruct (cache_insert_inv c h p u buf len Hinv Hlen)
    as (c' & kept & freed & E & Hl & Hl' & Hinv' & Hmin).
  rewrite Hl in Hmap. apply map_eq_app in Hmap.
  destruct Hmap as (LK & LFr & -> & HmK & HmF).
  destruct (ss_app_inv _ _ _ Hsort) as (SK & SF & Hcross).
  assert (HmF' : map snd (rev LFr) = freed).
  { rewrite map_rev, HmF, rev_involutive. reflexivity. }
  assert (Hfit : log_size LK + len <= MAX_CACHE_SIZE).
  { unfold log_size. rewrite HmK.
    pose proof (inv_budget _ Hinv') as Hb.
    rewrite (cons_sum _ (inv_consistent _ Hinv')), Hl' in Hb. simpl in Hb. lia. }
  exists c', kept, freed, LK, (rev LFr).
  refine (conj E (conj Hl (conj Hl' (conj Hinv' (conj Hmin _))))).
  rewrite rev_involutive.
  refine (conj eq_refl (conj HmK (conj HmF' _))).
  split; [|split; [|split]].
  - intros f k Hf Hk. apply in_rev in Hf. apply (Hcross k f Hk Hf).
  - apply (ss_rev newer LFr SF).
  - split.
    + simpl. rewrite HmK, Hl'. reflexivity.
    + constructor; [exact SK|].
      apply Forall_forall. intros e He. unfold newer. simpl.
      apply Hpast, in_or_app. left. exact He.
    + intros e [<-|He]; simpl; [lia|].
      assert (fst e < t)%nat; [|lia]. apply Hpast, in_or_app. left. exact He.
  - intros ops L' Hlog.
    apply (log_insert t (LK ++ LFr) h p u buf len LK LFr
             ((t, mkItem len h p u (firstn (Z.to_nat len) buf)) :: LK) ops L').
    + apply Permutation_refl.
    + intros f k Hf Hk. apply (Hcross k f Hk Hf).
    + exact Hfit.
    + intros y Hy Hmax. destruct LFr as [|y0 rest]; [destruct Hy|].
      apply StronglySorted_inv in SF. destruct SF as [_ Hy0].
      assert (Heq : y = y0).
      { destruct Hy as [Hy|Hy]; [symmetry; exact Hy|].
        rewrite Forall_forall in Hy0. specialize (Hy0 y Hy). unfold newer in Hy0.
        specialize (Hmax y0 (or_introl eq_refl)). lia. }
      subst y0. simpl in HmF.
      assert (Hfr : freed = (rev (map snd rest) ++ [snd y])%list).
      { rewrite <- (rev_involutive freed), <- HmF. reflexivity. }
      specialize (Hmin _ _ Hfr). rewrite total_length_app in Hmin. simpl in Hmin.
      unfold log_size. rewrite HmK. lia.
    + apply Permutation_refl.
    + exact Hlog.
Qed.

Lemma run_log (ops : list cache_op) (t : nat) (c : cache) (L : list stamped) :
  cache_inv c -> log_inv t c L -> forallb op_bounded ops = true ->
  exists c' L' t',
    run c ops = Ok c' /\ last_use_log t L ops L'
    /\ cache_inv c' /\ log_inv t' c' L'.
Proof.
  revert t c L. induction ops as [|o ops IH]; intros t c L Hinv Hlog Hops; simpl.
  - exists c, L, t. split; [reflexivity|]. split; [constructor|]. auto.
  - simpl in Hops. apply andb_true_iff in Hops. destruct Hops as [Ho Hops].
    destruct o as [h p u|h p u buf len]; simpl.
    + destruct (lookup_log t c L h p u Hlog) as (L1 & Hlog1 & Hrule).
      pose proof (get_cached_item_inv c h p u Hinv) as Hinv1.
      destruct (IH (S t) _ L1 Hinv1 Hlog1 Hops) as (c' & L' & t' & Hr & Hl & Hc & Hi).
      exists c', L', t'. split; [exact Hr|]. split; [apply Hrule, Hl|]. auto.
    + simpl in Ho. apply andb_true_iff in Ho. destruct Ho as [H0 H1].
      apply Z.leb_le in H0. apply Z.ltb_lt in H1.
      destruct (insert_log t c L h p u buf len Hinv Hlog (conj H0 H1))
        as (c1 & kept & freed & LK & LF & E & _ & _ & Hinv1 & _ & _ & _ & _ & _ & _
            & Hlog1 & Hrule).
      rewrite E. simpl.
      destruct (IH (S t) c1 _ Hinv1 Hlog1 Hops) as (c' & L' & t' & Hr & Hl & Hc & Hi).
      exists c', L', t'. split; [exact Hr|]. split; [apply Hrule, Hl|]. auto.
Qed.

End RecencyOrder.

(** C1.  After any sequence of lookups and insertions from the empty cache in
    which every inserted length is a byte count below [MAX_OBJECT_SIZE], the
    run has not faulted, and:
    - [cachesize] is the sum of the lengths in the list and is at most
      [MAX_CACHE_SIZE];
    - the list is in the order of last use: with [L] the entries and their
      times of last use, as [last_use_log] derives them from the operations
      (an insertion and a lookup that finds the entry are uses), the list is
      [L] read from the most recent time to the oldest;
    - a further such insertion returns; it frees exactly the entries with
      the oldest times of last use, oldest first (a suffix of the list, last
      node first), every one of them less recently used than every entry it
      keeps; it frees no node it could have kept (before the last node freed
      was unlinked the total with the new length exceeded the budget); it
      links the new node first and leaves [cachesize] equal to the sum and
      within the budget. *)
Theorem lru_eviction_keeps_budget
    (ops : list cache_op) (h p u : string) (buf : list byte) (len : Z) :
  forallb op_bounded ops = true ->
  0 <= len < MAX_OBJECT_SIZE ->
  exists c L,
    run cache_init ops = Ok c
    /\ last_use_log 0 [] ops L
    /\ map snd L = items c
    /\ StronglySorted newer L
    /\ cachesize c = total_length (items c)
    /\ cachesize c <= MAX_CACHE_SIZE
    /\ exists c' kept freed LK LF,
         cache_insert c h p u buf len = Ok (c', freed)
         /\ items c = (kept ++ rev freed)%list
         /\ items c' = mkItem len h p u (firstn (Z.to_nat len) buf) :: kept
         /\ cachesize c' = total_length (items c')
         /\ cachesize c' <= MAX_CACHE_SIZE
         /\ (forall fr y, freed = (fr ++ [y])%list ->
               total_length (kept ++ [y]) + len > MAX_CACHE_SIZE)
         /\ L = (LK ++ rev LF)%list
         /\ map snd LK = kept
         /\ map snd LF = freed
         /\ (forall f k, In f LF -> In k LK -> older f k)
         /\ StronglySorted older LF.
Proof.
  intros Hops Hlen.
  destruct (run_log ops 0 cache_init [] cache_init_inv log_inv_init Hops)
    as (c & L & t & Hrun & Hlog & Hinv & Hli).
  exists c, L. split; [exact Hrun|]. split; [exact Hlog|].
  split; [exact (log_items _ _ _ Hli)|]. split; [exact (log_sorted _ _ _ Hli)|].
  split; [exact (cons_sum _ (inv_consistent _ Hinv))|].
  split; [exact (inv_budget _ Hinv)|].
  destruct (insert_log t c L h p u buf len Hinv Hli Hlen)
    as (c' & kept & freed & LK & LF & E & Hl & Hl' & Hinv' & Hmin & HL & HK & HF
        & Hold & Hsf & _ & _).
  exists c', kept, freed, LK, LF.
  refine (conj E (conj Hl (conj Hl' (conj _ (conj _ (conj Hmin
          (conj HL (conj HK (conj HF (conj Hold Hsf)))))))))).
  - exact (cons_sum _ (inv_consistent _ Hinv')).
  - exact (inv_budget _ Hinv').
Qed.

(** Ten objects of 100,000 bytes, then a lookup of the oldest: the eleventh
    insertion evicts the second oldest. *)
Lemma lru_eviction_keeps_budget_witness :
  exists c L,
    run cache_init ten_objects_and_lookup = Ok c
    /\ last_use_log 0 [] ten_objects_and_lookup L
    /\ map snd L = items c
    /\ StronglySorted newer L
    /\ cachesize c = total_length (items c)
    /\ cachesize c <= MAX_CACHE_SIZE
    /\ exists c' kept freed LK LF,
         cache_insert c "origin" "9000" "/10" [] 100000 = Ok (c', freed)
         /\ items c = (kept ++ rev freed)%list
         /\ items c' = mkItem 100000 "origin" "9000" "/10" [] :: kept
         /\ cachesize c' = total_length (items c')
         /\ cachesize c' <= MAX_CACHE_SIZE
         /\ (forall fr y, freed = (fr ++ [y])%list ->
               total_length (kept ++ [y]) + 100000 > MAX_CACHE_SIZE)
         /\ L = (LK ++ rev LF)%list
         /\ map snd LK = kept
         /\ map snd LF = freed
         /\ (forall f k, In f LF -> In k LK -> older f k)
         /\ StronglySorted older LF.
Proof.
  apply (lru_eviction_keeps_budget ten_objects_and_lookup
           "origin" "9000" "/10" [] 100000).
  - reflexivity.
  - unfold MAX_OBJECT_SIZE. lia.
Defined.

Example lookup_saves_oldest_from_eviction :
  (c <- run cache_init ten_objects_and_lookup ;;
   ' (c', freed) <- cache_insert c "origin" "9000" "/10" [] 100000 ;;
   Ok (map ci_uri freed, map ci_uri (items c'), cachesize c'))
  = Ok (["/1"], ["/10"; "/0"; "/9"; "/8"; "/7"; "/6"; "/5"; "/4"; "/3"; "/2"], 1000000).
Proof. vm_compute. reflexivity. Qed.

Example eleventh_insert_evicts_oldest :
  (c <- run cache_init ten_objects ;;
   ' (c', freed) <- cache_insert c "origin" "9000" "/10" [] 100000 ;;
   Ok (map ci_uri freed, map ci_uri (items c'), cachesize c'))
  = Ok (["/0"], ["/10"; "/9"; "/8"; "/7"; "/6"; "/5"; "/4"; "/3"; "/2"; "/1"], 1000000).
Proof. vm_compute. reflexivity. Qed.

(** C10.  On a cache whose [cachesize] is the sum of the lengths in the list,
    all of them byte counts below [MAX_OBJECT_SIZE], the insertion of a length
    below [MAX_OBJECT_SIZE] returns: its loop never reaches
    [delete_last_cache] with an empty list, the one place where the model
    yields [Crash] (lemma [delete_last_cache_crash]). *)
Theorem eviction_never_deletes_from_empty
    (c : cache) (h p u : string) (buf : list byte) (len : Z) :
  int_range (cachesize c) ->
  cachesize c = total_length (items c) ->
  Forall item_bounded (items c) ->
  0 <= len < MAX_OBJECT_SIZE ->
  evict (S (List.length (items c))) c len <> Crash
  /\ exists c' freed, cache_insert c h p u buf len = Ok (c', freed).
Proof.
  intros Hi Hs Hit Hlen.
  assert (Hc : consistent c) by (constructor; assumption).
  split.
  - apply (evict_consistent _ c len Hc Hlen).
  - apply cache_insert_returns; assumption.
Qed.

Lemma eviction_never_deletes_from_empty_witness :
  evict 2 one_entry_cache 5 <> Crash
  /\ exists c' freed,
       cache_insert one_entry_cache "example.com" "80" "/x" [] 5 = Ok (c', freed).
Proof.
  apply (eviction_never_deletes_from_empty one_entry_cache "example.com" "80" "/x" [] 5).
  - unfold int_range, INT_MIN, INT_MAX. simpl. lia.
  - reflexivity.
  - repeat constructor; unfold MAX_OBJECT_SIZE; simpl; lia.
  - unfold MAX_OBJECT_SIZE. lia.
Defined.

(** C3.  When the new length is the length of the data, lies below
    [MAX_OBJECT_SIZE] and fits the budget next to what the cache holds, the
    insertion frees nothing, and the lookup of the same key that follows
    returns a node holding exactly the data and the length, which is then the
    first node of the list, in front of the previous contents. *)
Theorem insert_then_lookup
    (c : cache) (h p u : string) (data : list byte) (len : Z) :
  int_range (cachesize c) ->
  len = Z.of_nat (List.length data) ->
  len < MAX_OBJECT_SIZE ->
  cachesize c + len <= MAX_CACHE_SIZE ->
  exists c1,
    cache_insert c h p u data len = Ok (c1, [])
    /\ exists item c2,
         get_cached_item c1 h p u = (Some item, c2)
         /\ ci_data item = data
         /\ ci_length item = len
         /\ items c2 = item :: items c.
Proof.
  intros Hi Hlen Hlt Hroom.
  assert (Hr : int_range (cachesize c + len)).
  { unfold int_range, INT_MIN, INT_MAX, MAX_CACHE_SIZE in *. lia. }
  unfold cache_insert. simpl.
  rewrite (int_add_small _ _ Hr).
  destruct (cachesize c + len >? MAX_CACHE_SIZE) eqn:G.
  { apply gtb_true in G. lia. }
  simpl. eexists. split; [reflexivity|].
  unfold get_cached_item. simpl. rewrite same_request_refl.
  do 2 eexists. split; [reflexivity|]. simpl.
  rewrite Hlen, Nat2Z.id, firstn_all. auto.
Qed.

Lemma insert_then_lookup_witness :
  exists c1,
    cache_insert one_entry_cache "example.com" "80" "/x" [x68; x69] 2
    = Ok (c1, [])
    /\ exists item c2,
         get_cached_item c1 "example.com" "80" "/x" = (Some item, c2)
         /\ ci_data item = [x68; x69]
         /\ ci_length item = 2
         /\ items c2 = item :: items one_entry_cache.
Proof.
  apply (insert_then_lookup one_entry_cache "example.com" "80" "/x" [x68; x69] 2).
  - unfold int_range, INT_MIN, INT_MAX. simpl. lia.
  - reflexivity.
  - unfold MAX_OBJECT_SIZE. lia.
  - unfold MAX_CACHE_SIZE. simpl. lia.
Defined.

(** ** Keys *)

Section Keys.

Lemma cache_init_unique : unique_keys cache_init.
Proof. intros h p u. unfold count_key. simpl. lia. Qed.

(** An insertion of a key that has no entry, as after a lookup that missed. *)
Lemma insert_after_miss (c : cache) h p u buf (len : Z) :
  cache_inv c -> unique_keys c -> 0 <= len < MAX_OBJECT_SIZE ->
  count_key h p u (items c) = 0%nat ->
  exists c' freed,
    cache_insert c h p u buf len = Ok (c', freed)
    /\ cache_inv c' /\ unique_keys c'
    /\ count_key h p u (items c') = 1%nat.
Proof.
  intros Hinv Hu Hlen Hz.
  destruct (cache_insert_inv c h p u buf len Hinv Hlen)
    as (c' & kept & freed & E & Hl & Hl' & Hinv' & _).
  exists c', freed. split; [exact E|]. split; [exact Hinv'|].
  assert (Hk : forall h' p' u',
             (count_key h' p' u' kept <= count_key h' p' u' (items c))%nat).
  { intros. rewrite Hl, count_key_app. lia. }
  assert (H1 : count_key h p u (items c') = 1%nat).
  { rewrite Hl', count_key_cons, same_request_refl.
    specialize (Hk h p u). lia. }
  split; [|exact H1].
  intros h' p' u'.
  destruct (same_request h' p' u'
              (mkItem len h p u (firstn (Z.to_nat len) buf))) eqn:Es.
  - apply same_request_key in Es. destruct Es as (-> & -> & ->). lia.
  - rewrite Hl', count_key_cons, Es. specialize (Hk h' p' u').
    specialize (Hu h' p' u'). lia.
Qed.

End Keys.

(** C2.  The insertion block (lines 191-209) never looks for an entry with
    the key it inserts, and nothing keeps two handlers apart between the
    lookup of line 143 and the insertion.  When two handlers for the same
    target both look the key up before either has inserted, both miss and
    both insert: the cache then holds two entries for the key. *)
Theorem overlapping_handlers_duplicate_key :
  run cache_init racing_handlers
  = Ok (mkCache [mkItem 3 "example.com" "80" "/" [x61; x62; x63];
                 mkItem 3 "example.com" "80" "/" [x61; x62; x63]] 2 6)
  /\ count_key "example.com" "80" "/"
       [mkItem 3 "example.com" "80" "/" [x61; x62; x63];
        mkItem 3 "example.com" "80" "/" [x61; x62; x63]] = 2%nat.
Proof. split; reflexivity. Qed.

(** The same inserts with each handler's lookup directly before its own
    insert: the second handler hits and does not insert. *)
Example handlers_in_turn_share_entry :
  (c1 <- run cache_init [Lookup "example.com" "80" "/";
                         Insert "example.com" "80" "/" [x61; x62; x63] 3] ;;
   Ok (fst (get_cached_item c1 "example.com" "80" "/"), items c1))
  = Ok (Some (mkItem 3 "example.com" "80" "/" [x61; x62; x63]),
        [mkItem 3 "example.com" "80" "/" [x61; x62; x63]]).
Proof. reflexivity. Qed.

(** ** [parse_url] on concrete targets *)

(** C6.  The three targets of the specification resolve as it says. *)
Theorem parse_url_examples :
  parse_url "http://example.com:8080/a/b" = Ok ("example.com", "8080", "/a/b")
  /\ parse_url "http://example.com" = Ok ("example.com", "80", "/")
  /\ parse_url "example.com/x" = Ok ("example.com", "80", "/x").
Proof. repeat split; reflexivity. Qed.

(** C5.  [parse_url] tests whether the target contains a colon anywhere
    ([hp == NULL], line 254) and never compares its position with that of the
    first slash.  For a target whose only colon comes after the first slash
    the host runs up to that colon and the port is what follows it, not
    "80". *)
Theorem parse_url_colon_after_slash :
  parse_url "http://example.com/a:b/c" = Ok ("example.com/a", "b", "/c").
Proof. reflexivity. Qed.

(** Further targets on which the host and port differ from the substrings the
    specification names, or on which the function faults. *)
Example parse_url_query_with_time :
  parse_url "http://example.com/at?t=12:30" = Ok ("example.com/at?t=12", "30", "/").
Proof. reflexivity. Qed.

Example parse_url_empty_port :
  parse_url "http://example.com:/path" = Ok ("example.com", "path", "/")
  /\ parse_url "http://example.com:" = Crash.
Proof. split; reflexivity. Qed.

(** ** The handler: traces *)

Section Traces.

Lemma client_writes_app (a b : list event) :
  client_writes (a ++ b) = (client_writes a ++ client_writes b)%list.
Proof. unfold client_writes. apply flat_map_app. Qed.

Lemma server_writes_app (a b : list event) :
  server_writes (a ++ b) = (server_writes a ++ server_writes b)%list.
Proof. unfold server_writes. apply flat_map_app. Qed.

Lemma server_writes_free_items (l : list cacheitem) :
  server_writes (map FreeItem l) = [].
Proof. induction l; simpl; auto. Qed.

Lemma client_writes_free_items (l : list cacheitem) :
  client_writes (map FreeItem l) = [].
Proof. induction l; simpl; auto. Qed.

Lemma forward_headers_client (lines : list string) :
  client_writes (forward_headers lines) = [].
Proof.
  induction lines as [|l lines IH]; simpl; [reflexivity|].
  destruct (String.length l =? 0)%nat; [reflexivity|].
  destruct (strcmp0 l CRLF); [reflexivity|].
  destruct (forwarded l); simpl; exact IH.
Qed.

(** The header loop writes the lines of the header block that pass the test
    of line 168, in order. *)
Lemma forward_headers_filter (lines : list string) :
  server_writes (forward_headers lines) = filter forwarded (header_block lines).
Proof.
  induction lines as [|l lines IH]; [reflexivity|].
  cbn [forward_headers header_block]. unfold strcmp0.
  destruct l as [|a l]; [reflexivity|].
  change (String.length (String a l) =? 0)%nat with false.
  change (String.eqb (String a l) "") with false. cbn [orb].
  remember (String a l) as line eqn:Hline. clear Hline.
  destruct (String.eqb line CRLF); [reflexivity|].
  cbn [filter]. destruct (forwarded line); [|exact IH].
  change (server_writes (ServerWrite line :: forward_headers lines))
    with (line :: server_writes (forward_headers lines)).
  rewrite IH. reflexivity.
Qed.

Lemma relay_server (chunks : list (list byte)) (st : capture) :
  server_writes (snd (relay chunks st)) = [].
Proof.
  revert st. induction chunks as [|b chunks IH]; intros st; simpl; [reflexivity|].
  destruct (List.length b =? 0)%nat; [reflexivity|].
  specialize (IH (capture_chunk st b)).
  destruct (relay chunks (capture_chunk st b)) as [st' evs]. simpl in *. exact IH.
Qed.

(** Every chunk read is written to the client, whatever [valid] is. *)
Lemma relay_client (chunks : list (list byte)) (st : capture) :
  forallb (fun b => negb (List.length b =? 0)%nat) chunks = true ->
  client_writes (snd (relay chunks st)) = chunks.
Proof.
  revert st. induction chunks as [|b chunks IH]; intros st H; simpl; [reflexivity|].
  simpl in H. apply andb_true_iff in H. destruct H as [Hb H].
  destruct (List.length b =? 0)%nat; [discriminate|].
  specialize (IH (capture_chunk st b) H).
  destruct (relay chunks (capture_chunk st b)) as [st' evs]. simpl in *.
  rewrite IH. reflexivity.
Qed.

Lemma relay_invalid (chunks : list (list byte)) (st : capture) :
  valid st = false -> valid (fst (relay chunks st)) = false.
Proof.
  revert st. induction chunks as [|b chunks IH]; intros st H; simpl; [exact H|].
  destruct (List.length b =? 0)%nat; [exact H|].
  assert (Hc : valid (capture_chunk st b) = false).
  { unfold capture_chunk. rewrite H. simpl. exact H. }
  specialize (IH _ Hc).
  destruct (relay chunks (capture_chunk st b)) as [st' evs]. exact IH.
Qed.

Variable MAXLINE : Z.
Hypothesis MAXLINE_fits : MAXLINE <= INT_MAX - MAX_OBJECT_SIZE.

Lemma chunk_ok_nonempty (chunks : list (list byte)) :
  forallb (chunk_ok MAXLINE) chunks = true ->
  forallb (fun b => negb (List.length b =? 0)%nat) chunks = true.
Proof.
  induction chunks as [|b chunks IH]; simpl; [reflexivity|].
  intros H. apply andb_true_iff in H. destruct H as [Hb H].
  rewrite (IH H), andb_true_r.
  unfold chunk_ok in Hb. apply andb_true_iff in Hb. destruct Hb as [Hb _].
  apply Z.ltb_lt in Hb. destruct (Nat.eqb_spec (List.length b) 0); [lia|reflexivity].
Qed.

(** While [valid] holds, [len] counts the bytes captured and stays below the
    ceiling; a stream that reaches the ceiling clears [valid]. *)
Lemma relay_oversized (chunks : list (list byte)) (st : capture) :
  forallb (chunk_ok MAXLINE) chunks = true ->
  (valid st = true -> 0 <= len st < MAX_OBJECT_SIZE) ->
  (valid st = true -> MAX_OBJECT_SIZE <= len st + total_bytes chunks) ->
  valid (fst (relay chunks st)) = false.
Proof.
  revert st. induction chunks as [|b chunks IH]; intros st Hok Hlen Htot; simpl.
  - destruct (valid st) eqn:V; [|reflexivity].
    specialize (Hlen eq_refl). specialize (Htot eq_refl). simpl in Htot. lia.
  - simpl in Hok. apply andb_true_iff in Hok. destruct Hok as [Hb Hok].
    unfold chunk_ok in Hb. apply andb_true_iff in Hb. destruct Hb as [Hb0 Hb1].
    apply Z.ltb_lt in Hb0. apply Z.leb_le in Hb1.
    destruct (Nat.eqb_spec (List.length b) 0) as [E|_]; [lia|].
    assert (Hst : valid (fst (relay chunks (capture_chunk st b))) = false).
    { destruct (valid st) eqn:V.
      - specialize (Hlen eq_refl). specialize (Htot eq_refl). simpl in Htot.
        assert (Hr : int_range (len st + Z.of_nat (List.length b))).
        { unfold int_range, INT_MIN, INT_MAX, MAX_OBJECT_SIZE in *. lia. }
        unfold capture_chunk. rewrite V. simpl. rewrite (int_add_small _ _ Hr).
        destruct (len st + Z.of_nat (List.length b) <? MAX_OBJECT_SIZE)%Z eqn:L.
        + apply Z.ltb_lt in L. apply IH; simpl; intros; try assumption; lia.
        + apply relay_invalid. reflexivity.
      - apply relay_invalid. unfold capture_chunk. rewrite V. simpl. exact V. }
    destruct (relay chunks (capture_chunk st b)) as [st' evs]. exact Hst.
Qed.

End Traces.

(** ** The handler: the path past the cache lookup *)

Lemma check_request_line_nonempty (line : string) r :
  check_request_line line = Some r -> (String.length line =? 0)%nat = false.
Proof. destruct line; [discriminate|reflexivity]. Qed.

Section HandlerPaths.

Variables (c : cache) (conn : connection).
Variables (buf : string) (headers : list string).
Variables (method url version host port uri : string).

Hypothesis Hlines : client_lines conn = buf :: headers.
Hypothesis Hcheck : check_request_line buf = Some (Some method, Some url, version).
Hypothesis Hparse : parse_url url = Ok (host, port, uri).
Hypothesis Hmiss : fst (get_cached_item c host port uri) = None.

Lemma request_line_nonempty : (String.length buf =? 0)%nat = false.
Proof using Hcheck. exact (check_request_line_nonempty _ _ Hcheck). Qed.

Lemma lookup_miss : get_cached_item c host port uri = (None, c).
Proof using Hmiss.
  pose proof (get_cached_item_items c host port uri) as H.
  destruct (get_cached_item c host port uri) as [[x|] c1]; [discriminate Hmiss|].
  destruct H as [-> _]. reflexivity.
Qed.

Lemma lookup_miss_count : count_key host port uri (items c) = 0%nat.
Proof using Hmiss.
  pose proof (get_cached_item_items c host port uri) as H.
  destruct (get_cached_item c host port uri) as [[x|] c1]; [discriminate Hmiss|].
  apply H.
Qed.

(** Lines 150-157. *)
Lemma proxy_connect_failure :
  upstream conn = None ->
  proxy c conn
  = ([ClientWrite bad_request_bytes; Free host; Free port; Free uri], Ok c).
Proof using Hlines Hcheck Hparse Hmiss.
  intros Hup. unfold proxy.
  rewrite Hlines, request_line_nonempty, Hcheck, Hparse, lookup_miss, Hup.
  reflexivity.
Qed.

(** Lines 159-219. *)
Lemma proxy_relay (chunks : list (list byte)) :
  upstream conn = Some chunks ->
  proxy c conn
  = let reqline := request_line method uri version in
    let sent := (ServerWrite reqline :: forward_headers headers
                 ++ [ServerWrite client_res_hdr])%list in
    let (cap, relayed) := relay chunks (mkCapture true 0 []) in
    if valid cap then
      match cache_insert c host port uri (cachebuf cap) (len cap) with
      | Ok (c2, freed) =>
          ((sent ++ relayed ++ map FreeItem freed
            ++ [ClientClose; FreeCachebuf])%list, Ok c2)
      | Crash => ((sent ++ relayed)%list, Crash)
      | OutOfFuel => ((sent ++ relayed)%list, OutOfFuel)
      end
    else
      ((sent ++ relayed
        ++ [Free host; Free port; Free uri; ClientClose; FreeCachebuf])%list,
       Ok c).
Proof using Hlines Hcheck Hparse Hmiss.
  intros Hup. unfold proxy.
  rewrite Hlines, request_line_nonempty, Hcheck, Hparse, lookup_miss, Hup.
  reflexivity.
Qed.

Lemma proxy_server_writes (chunks : list (list byte)) :
  upstream conn = Some chunks ->
  server_writes (fst (proxy c conn))
  = (request_line method uri version
     :: filter forwarded (header_block headers) ++ [client_res_hdr])%list.
Proof using Hlines Hcheck Hparse Hmiss.
  intros Hup. rewrite (proxy_relay chunks Hup). cbv zeta.
  pose proof (relay_server chunks (mkCapture true 0 [])) as Hr.
  destruct (relay chunks (mkCapture true 0 [])) as [cap relayed]. simpl in Hr.
  assert (Hsent : forall tail, server_writes tail = [] ->
            server_writes
              ((ServerWrite (request_line method uri version)
                :: forward_headers headers ++ [ServerWrite client_res_hdr])
               ++ relayed ++ tail)%list
            = (request_line method uri version
               :: filter forwarded (header_block headers) ++ [client_res_hdr])%list).
  { intros tail Ht.
    change (server_writes ((ServerWrite ?x :: ?l) ++ ?r))
      with (x :: server_writes (l ++ r)).
    rewrite !server_writes_app, forward_headers_filter, Hr, Ht.
    simpl. rewrite app_nil_r. reflexivity. }
  destruct (valid cap).
  - destruct (cache_insert c host port uri (cachebuf cap) (len cap))
      as [[c2 freed]| |]; cbn [fst].
    + apply Hsent. rewrite server_writes_app, server_writes_free_items. reflexivity.
    + rewrite <- (app_nil_r relayed). apply Hsent. reflexivity.
    + rewrite <- (app_nil_r relayed). apply Hsent. reflexivity.
  - cbn [fst]. apply Hsent. reflexivity.
Qed.

End HandlerPaths.

(** ** The header filter *)

Section HeaderFilter.

Lemma strncmp0_prefix (s lit : string) :
  strncmp0 s lit = true <-> exists rest, s = lit ++ rest.
Proof.
  revert s. induction lit as [|b lit IH]; intros s; simpl.
  - split; [eauto|reflexivity].
  - destruct s as [|a s].
    + split; [discriminate|]. intros [rest H]. discriminate.
    + destruct (Ascii.eqb_spec a b) as [->|Hne].
      * rewrite IH. split; intros [rest H]; exists rest.
        { rewrite H. reflexivity. }
        { inversion H. reflexivity. }
      * split; [discriminate|]. intros [rest H]. inversion H. contradiction.
Qed.

Lemma span_token_split (delim s : string) :
  s = fst (span_token delim s) ++ snd (span_token delim s).
Proof.
  induction s as [|a s IH]; simpl; [reflexivity|].
  destruct (strchr delim a); [reflexivity|].
  destruct (span_token delim s) as [t r]. simpl in *. rewrite <- IH. reflexivity.
Qed.

Lemma forwarded_false (line : string) :
  forwarded line = false <->
  exists rest, line = "User-Agent" ++ rest \/ line = "Connection" ++ rest
               \/ line = "Proxy-Connection" ++ rest.
Proof.
  unfold forwarded.
  pose proof (strncmp0_prefix line "User-Agent") as H1.
  pose proof (strncmp0_prefix line "Connection") as H2.
  pose proof (strncmp0_prefix line "Proxy-Connection") as H3.
  destruct (strncmp0 line "User-Agent").
  { split; [|reflexivity]. intros _.
    destruct (proj1 H1 eq_refl) as [rest Hr]. exists rest. auto. }
  destruct (strncmp0 line "Connection").
  { split; [|reflexivity]. intros _.
    destruct (proj1 H2 eq_refl) as [rest Hr]. exists rest. auto. }
  destruct (strncmp0 line "Proxy-Connection").
  { split; [|reflexivity]. intros _.
    destruct (proj1 H3 eq_refl) as [rest Hr]. exists rest. auto. }
  split; [discriminate|]. intros [rest [H|[H|H]]].
  - assert (false = true) by (apply H1; eauto). discriminate.
  - assert (false = true) by (apply H2; eauto). discriminate.
  - assert (false = true) by (apply H3; eauto). discriminate.
Qed.

Lemma replaced_header_not_forwarded (line : string) :
  replaced_header line = true -> forwarded line = false.
Proof.
  unfold replaced_header, header_name. intros H.
  apply forwarded_false. exists (snd (span_token ":" line)).
  pose proof (span_token_split ":" line) as Hs.
  apply orb_true_iff in H. destruct H as [H|H].
  - apply orb_true_iff in H. destruct H as [H|H]; apply String.eqb_eq in H;
      rewrite H in Hs; auto.
  - apply String.eqb_eq in H. rewrite H in Hs. auto.
Qed.

End HeaderFilter.

(** ** The handler claims *)

(** C8.  The comment of lines 166-167 says that the three headers
    User-Agent, Connection and Proxy-Connection are ignored; line 168 compares
    the first 10 (or 16) characters of the line with these names, case
    sensitively.  So a header of another name that starts like one of them is
    held back as well: of the sample request the line
    [Connection-Timeout: 5] is not relayed, although the header block without
    the three headers contains it.  And a User-Agent header spelt in lower
    case is relayed, in front of the fixed User-Agent header. *)
Theorem header_filter_compares_prefixes :
  server_writes (fst (proxy cache_init (sample_request [[x2a]])))
  = ["GET /page HTTP/1.1" ++ CRLF;
     "Host: origin:9000" ++ CRLF;
     "Accept: text/html" ++ CRLF;
     client_res_hdr]
  /\ filter (fun l => negb (replaced_header l)) (header_block sample_headers)
     = ["Host: origin:9000" ++ CRLF;
        "Connection-Timeout: 5" ++ CRLF;
        "Accept: text/html" ++ CRLF]
  /\ server_writes (fst (proxy cache_init lowercase_request))
     = ["GET /page HTTP/1.1" ++ CRLF;
        "user-agent: x" ++ CRLF;
        client_res_hdr].
Proof. repeat split; reflexivity. Qed.

(** What the handler sends to the server on a request that passes the
    request-line check and misses the cache, with the upstream connection
    open: the line [METHOD URI VERSION] with the resolved path in place of
    the URL; then, unchanged and in order, the lines of the header block
    (those before the blank line) that line 168 lets through; then the fixed
    header block.  Line 168 holds back exactly the lines that begin with the
    characters [User-Agent], [Connection] or [Proxy-Connection]. *)
Lemma upstream_request
    (c : cache) (conn : connection) (buf : string) (headers : list string)
    (method url version host port uri : string) (chunks : list (list byte)) :
  client_lines conn = buf :: headers ->
  check_request_line buf = Some (Some method, Some url, version) ->
  parse_url url = Ok (host, port, uri) ->
  fst (get_cached_item c host port uri) = None ->
  upstream conn = Some chunks ->
  server_writes (fst (proxy c conn))
  = ((method ++ " " ++ uri ++ " " ++ version ++ CRLF)%string
     :: filter forwarded (header_block headers) ++ [client_res_hdr])%list
  /\ (forall line,
        forwarded line = false <->
        exists rest, line = "User-Agent" ++ rest \/ line = "Connection" ++ rest
                     \/ line = "Proxy-Connection" ++ rest).
Proof.
  intros Hlines Hcheck Hparse Hmiss Hup. split.
  - exact (proxy_server_writes c conn buf headers method url version host port uri
             Hlines Hcheck Hparse Hmiss chunks Hup).
  - exact forwarded_false.
Qed.

(** C9.  On the connect-failure path (lines 150-157) the handler writes the
    fixed 400 payload and frees host, port and uri, and the cache is as it
    was; it returns without [close(connfd)]: no close is in the trace. *)
Theorem connect_failure_leaves_client_open :
  proxy cache_init refused_connection
  = ([ClientWrite bad_request_bytes; Free "example.com"; Free "80"; Free "/"],
     Ok cache_init)
  /\ existsb is_close (fst (proxy cache_init refused_connection)) = false
  /\ bad_request
     = "HTTP/1.0 400 Bad Request" ++ CRLF ++ "Content-Type: plain/text" ++ CRLF
       ++ "Content-Length: 0" ++ CRLF ++ CRLF.
Proof. repeat split; reflexivity. Qed.

(** The same on every run that takes this path. *)
Lemma connect_failure_never_closes
    (c : cache) (conn : connection) (buf : string) (headers : list string)
    (method url version host port uri : string) :
  client_lines conn = buf :: headers ->
  check_request_line buf = Some (Some method, Some url, version) ->
  parse_url url = Ok (host, port, uri) ->
  fst (get_cached_item c host port uri) = None ->
  upstream conn = None ->
  proxy c conn = ([ClientWrite bad_request_bytes; Free host; Free port; Free uri], Ok c)
  /\ existsb is_close (fst (proxy c conn)) = false.
Proof.
  intros Hlines Hcheck Hparse Hmiss Hup.
  rewrite (proxy_connect_failure c conn buf headers method url version host port uri
             Hlines Hcheck Hparse Hmiss Hup).
  split; reflexivity.
Qed.

(** The sibling exits close the client socket: an empty request, a malformed
    request line, a cache hit. *)
Example other_exits_close :
  proxy cache_init (mkConn [] None)
  = ([ClientWrite bad_request_bytes; ClientClose], Ok cache_init)
  /\ proxy cache_init (mkConn ["GET /" ++ CRLF] None)
     = ([ClientWrite bad_request_bytes; ClientClose], Ok cache_init)
  /\ proxy one_entry_cache refused_connection
     = ([ClientWrite [x61; x62; x63]; ClientClose], Ok one_entry_cache).
Proof. repeat split; reflexivity. Qed.

(** C7.  [MAXLINE] is the buffer size of csapp.h, a parameter here: a chunk
    has between 1 and [MAXLINE] bytes, and [MAXLINE] added to a captured
    length fits an [int].  On a request that passes the request-line check and
    misses the cache, when the chunks of the response add up to
    [MAX_OBJECT_SIZE] bytes or more, the handler writes every chunk to the
    client, in order and whole, and returns with the cache as it was, which
    holds no entry for the key of the request.  The writes to the client do
    not depend on the capture: from any capture state, valid or not, [relay]
    writes exactly the chunks. *)
Theorem oversized_response_relayed_not_cached
    (MAXLINE : Z)
    (c : cache) (conn : connection) (buf : string) (headers : list string)
    (method url version host port uri : string) (chunks : list (list byte)) :
  MAXLINE <= INT_MAX - MAX_OBJECT_SIZE ->
  client_lines conn = buf :: headers ->
  check_request_line buf = Some (Some method, Some url, version) ->
  parse_url url = Ok (host, port, uri) ->
  fst (get_cached_item c host port uri) = None ->
  upstream conn = Some chunks ->
  forallb (chunk_ok MAXLINE) chunks = true ->
  MAX_OBJECT_SIZE <= total_bytes chunks ->
  client_writes (fst (proxy c conn)) = chunks
  /\ snd (proxy c conn) = Ok c
  /\ count_key host port uri (items c) = 0%nat
  /\ forall st, client_writes (snd (relay chunks st)) = chunks.
Proof.
  intros HM Hlines Hcheck Hparse Hmiss Hup Hok Htot.
  pose proof (chunk_ok_nonempty MAXLINE chunks Hok) as Hne.
  assert (Hinit : valid (fst (relay chunks (mkCapture true 0 []))) = false).
  { apply (relay_oversized MAXLINE HM chunks); simpl; intros;
      [assumption | unfold MAX_OBJECT_SIZE; lia | lia]. }
  pose proof (relay_client chunks (mkCapture true 0 []) Hne) as Hw.
  rewrite (proxy_relay c conn buf headers method url version host port uri
             Hlines Hcheck Hparse Hmiss chunks Hup). cbv zeta.
  destruct (relay chunks (mkCapture true 0 [])) as [cap relayed].
  simpl in Hinit, Hw. rewrite Hinit. cbn [fst snd].
  split; [|split; [reflexivity|split]].
  - change (client_writes ((ServerWrite ?x :: ?l) ++ ?r))
      with (client_writes (l ++ r)).
    rewrite !client_writes_app, forward_headers_client, Hw. simpl.
    apply app_nil_r.
  - exact (lookup_miss_count c host port uri Hmiss).
  - intros st. apply relay_client, Hne.
Qed.

Lemma oversized_response_relayed_not_cached_witness :
  client_writes (fst (proxy cache_init (sample_request large_response)))
  = large_response
  /\ snd (proxy cache_init (sample_request large_response)) = Ok cache_init
  /\ count_key "origin" "9000" "/page" (items cache_init) = 0%nat
  /\ forall st, client_writes (snd (relay large_response st)) = large_response.
Proof.
  apply (oversized_response_relayed_not_cached 8192
           cache_init (sample_request large_response)
           ("GET http://origin:9000/page HTTP/1.1" ++ CRLF) sample_headers
           "GET" "http://origin:9000/page" "HTTP/1.1" "origin" "9000" "/page"
           large_response).
  - vm_compute. discriminate.
  - reflexivity.
  - reflexivity.
  - reflexivity.
  - reflexivity.
  - reflexivity.
  - vm_compute. reflexivity.
  - vm_compute. discriminate.
Defined.

(** ** [strtok] *)

Lemma append_empty_r (s : string) : s ++ "" = s.
Proof. induction s as [|a s IH]; simpl; [reflexivity|]. rewrite IH. reflexivity. Qed.

Lemma append_assoc (a b c : string) : (a ++ b) ++ c = a ++ b ++ c.
Proof. induction a as [|x a IH]; simpl; [reflexivity|]. rewrite IH. reflexivity. Qed.

Section Strtok.

Variable delim : string.

Lemma span_delims_spec (s : string) :
  s = fst (span_delims delim s) ++ snd (span_delims delim s)
  /\ all_delim delim (fst (span_delims delim s)) = true
  /\ match snd (span_delims delim s) with
     | EmptyString => True
     | String a _ => strchr delim a = false
     end.
Proof.
  induction s as [|a s IH]; simpl; [auto|].
  destruct (strchr delim a) eqn:E.
  - destruct (span_delims delim s) as [p r]. simpl in *.
    destruct IH as (Hs & Hp & Hr). rewrite E, Hp, <- Hs. auto.
  - simpl. rewrite E. auto.
Qed.

Lemma span_token_spec (s : string) :
  s = fst (span_token delim s) ++ snd (span_token delim s)
  /\ no_delim delim (fst (span_token delim s)) = true
  /\ ends_token delim (snd (span_token delim s)) = true.
Proof.
  induction s as [|a s IH]; simpl; [auto|].
  destruct (strchr delim a) eqn:E.
  - simpl. rewrite E. auto.
  - destruct (span_token delim s) as [t r]. simpl in *.
    destruct IH as (Hs & Ht & Hr). rewrite E, Ht, <- Hs. auto.
Qed.

Lemma span_token_app (t r : string) :
  no_delim delim t = true -> ends_token delim r = true ->
  span_token delim (t ++ r) = (t, r).
Proof.
  intros Ht Hr. induction t as [|a t IH]; simpl.
  - destruct r as [|b r]; [reflexivity|]. simpl in Hr. simpl. rewrite Hr. reflexivity.
  - simpl in Ht. apply andb_true_iff in Ht. destruct Ht as [Ha Ht].
    apply negb_true_iff in Ha. rewrite Ha, (IH Ht). reflexivity.
Qed.

(** [strtok] on a text that starts with a token. *)
Lemma strtok_token (t r : string) :
  is_token delim t = true -> ends_token delim r = true ->
  strtok (t ++ r) delim = (EmptyString, Some t, drop 1 r).
Proof.
  unfold is_token. intros Ht Hr. apply andb_true_iff in Ht. destruct Ht as [Hne Ht].
  destruct t as [|a t]; [discriminate|].
  pose proof (span_token_app (String a t) r Ht Hr) as Hsp.
  simpl in Ht. apply andb_true_iff in Ht. destruct Ht as [Ha _].
  apply negb_true_iff in Ha.
  unfold strtok. simpl span_delims. rewrite Ha.
  change (String a (t ++ r)) with (String a t ++ r). rewrite Hsp. reflexivity.
Qed.

(** What a call of [strtok] says about the text it scanned. *)
Lemma strtok_inv (s sk saved : string) (tok : option string) :
  strtok s delim = (sk, tok, saved) ->
  all_delim delim sk = true
  /\ match tok with
     | None => s = sk /\ saved = EmptyString
     | Some t =>
         is_token delim t = true
         /\ ((s = sk ++ t /\ saved = EmptyString)
             \/ exists a, strchr delim a = true /\ s = sk ++ t ++ String a saved)
     end.
Proof.
  unfold strtok.
  destruct (span_delims_spec s) as (Hs & Hp & Hr).
  destruct (span_delims delim s) as [p s1]. simpl in *.
  destruct s1 as [|a s1].
  - intros H; inversion H; subst. rewrite append_empty_r. auto.
  - destruct (span_token_spec (String a s1)) as (Hs1 & Ht & He).
    destruct (span_token delim (String a s1)) as [t r]. simpl fst in *. simpl snd in *.
    intros H; inversion H; subst. split; [exact Hp|].
    assert (Hne : is_token delim t = true).
    { unfold is_token. rewrite Ht, andb_true_r.
      destruct t as [|b t]; [|reflexivity].
      simpl in Hs1. subst r. simpl in He. congruence. }
    split; [exact Hne|].
    destruct r as [|b r]; simpl.
    + left. rewrite Hs1, append_empty_r. auto.
    + right. exists b. simpl in He. rewrite Hs1. auto.
Qed.

End Strtok.

(** ** Tokens *)

Section Tokens.

Variable delim : string.

Lemma fields_nonempty (s : string) : fields delim s <> [].
Proof.
  destruct s as [|a s]; simpl; [discriminate|].
  destruct (strchr delim a); [discriminate|].
  destruct (fields delim s); discriminate.
Qed.

Lemma tokens_delim (a : ascii) (s : string) :
  strchr delim a = true -> tokens delim (String a s) = tokens delim s.
Proof. intros H. unfold tokens. simpl. rewrite H. reflexivity. Qed.

Lemma tokens_skip (p r : string) :
  all_delim delim p = true -> tokens delim (p ++ r) = tokens delim r.
Proof.
  induction p as [|a p IH]; simpl; [reflexivity|].
  intros H. apply andb_true_iff in H. destruct H as [Ha Hp].
  rewrite (tokens_delim _ _ Ha). apply IH, Hp.
Qed.

Lemma fields_token (t r : string) (a : ascii) :
  no_delim delim t = true -> strchr delim a = true ->
  fields delim (t ++ String a r) = t :: fields delim r.
Proof.
  intros Ht Ha. induction t as [|b t IH]; simpl.
  - rewrite Ha. reflexivity.
  - simpl in Ht. apply andb_true_iff in Ht. destruct Ht as [Hb Ht].
    apply negb_true_iff in Hb. rewrite Hb, (IH Ht). reflexivity.
Qed.

Lemma tokens_token (t r : string) (a : ascii) :
  is_token delim t = true -> strchr delim a = true ->
  tokens delim (t ++ String a r) = t :: tokens delim r.
Proof.
  unfold is_token. intros Ht Ha. apply andb_true_iff in Ht. destruct Ht as [Hne Ht].
  unfold tokens. rewrite (fields_token t r a Ht Ha). simpl. rewrite Hne. reflexivity.
Qed.

Lemma tokens_start (a : ascii) (s : string) :
  strchr delim a = false -> tokens delim (String a s) <> [].
Proof.
  intros Ha. unfold tokens. simpl. rewrite Ha.
  destruct (fields delim s); simpl; discriminate.
Qed.

End Tokens.

(** ** [check_request_line] *)

Section RequestLineProofs.

Lemma strchr_app (t r : string) (a : ascii) : strchr (t ++ String a r) a = true.
Proof.
  induction t as [|b t IH]; simpl.
  - rewrite Ascii.eqb_refl. reflexivity.
  - destruct (Ascii.eqb b a); [reflexivity|exact IH].
Qed.

Lemma supported_version_inv (v : string) :
  supported_version v = true -> v = "HTTP/1.1" \/ v = "HTTP/1.0".
Proof.
  unfold supported_version, strcmp0. intros H. apply orb_true_iff in H.
  destruct H as [H|H]; apply String.eqb_eq in H; auto.
Qed.

Lemma crlf_not_blank (a : ascii) : strchr CRLF a = true -> strchr " " a = false.
Proof.
  destruct a as [[] [] [] [] [] [] [] []]; intros H;
    try reflexivity; vm_compute in H; discriminate H.
Qed.

(** A well-formed line. *)
Lemma check_request_line_form (M U V T : string) :
  is_token " " M = true -> is_token " " U = true ->
  is_token CRLF V = true -> ends_token CRLF T = true ->
  check_request_line (M ++ " " ++ U ++ " " ++ V ++ T)
  = if supported_version V then Some (Some M, Some U, V) else None.
Proof.
  intros HM HU HV HT. unfold check_request_line.
  change (M ++ " " ++ U ++ " " ++ V ++ T)
    with (M ++ String " " (U ++ " " ++ V ++ T)).
  rewrite strchr_app. cbn [negb].
  rewrite (strtok_token " " M (String " " (U ++ " " ++ V ++ T)) HM eq_refl).
  cbn [drop].
  change (U ++ " " ++ V ++ T) with (U ++ String " " (V ++ T)).
  rewrite (strtok_token " " U (String " " (V ++ T)) HU eq_refl).
  cbn [drop].
  rewrite (strtok_token CRLF V T HV HT).
  destruct (supported_version V); reflexivity.
Qed.

(** A line the function accepts: method and URL are tokens (never [NULL]),
    the version is one of the two supported, and the line has at least three
    space-separated tokens. *)
Lemma check_request_line_inv (line : string) m u v :
  check_request_line line = Some (m, u, v) ->
  (exists M U, m = Some M /\ u = Some U
               /\ is_token " " M = true /\ is_token " " U = true)
  /\ supported_version v = true
  /\ (3 <= List.length (tokens " " line))%nat.
Proof.
  unfold check_request_line.
  destruct (strchr line " "); [|discriminate]. cbn [negb].
  destruct (strtok line " ") as [[sk1 m'] saved1] eqn:E1.
  destruct (strtok saved1 " ") as [[sk2 u'] saved2] eqn:E2.
  destruct (strtok saved2 CRLF) as [[sk3 v'] saved3] eqn:E3.
  destruct v' as [v'|]; [|discriminate].
  destruct (supported_version v') eqn:Ev; [|discriminate].
  cbn [negb]. intros H. inversion H; subst m' u' v'. clear H.
  apply strtok_inv in E1. destruct E1 as [Hsk1 H1].
  apply strtok_inv in E2. destruct E2 as [Hsk2 H2].
  apply strtok_inv in E3. destruct E3 as [Hsk3 [Hv H3]].
  (* the third call found a token, so its text starts with a non-blank *)
  assert (Hs2 : tokens " " saved2 <> []).
  { assert (Hstart : exists a rest, saved2 = String a rest /\ strchr " " a = false).
    { assert (Hsplit : exists tail, saved2 = sk3 ++ v ++ tail).
      { destruct H3 as [[-> _]|[a [_ ->]]]; [exists ""|eauto].
        rewrite append_empty_r. reflexivity. }
      destruct Hsplit as [tail ->].
      destruct sk3 as [|a sk3].
      - apply supported_version_inv in Ev. destruct Ev as [-> | ->];
          simpl; eexists; eexists; split; reflexivity.
      - simpl in Hsk3. apply andb_true_iff in Hsk3. destruct Hsk3 as [Ha _].
        exists a. eexists. split; [reflexivity|]. apply crlf_not_blank, Ha. }
    destruct Hstart as (a & rest & -> & Ha). apply tokens_start, Ha. }
  (* hence the second and the first call found tokens followed by a blank *)
  destruct u as [U|].
  2:{ destruct H2 as [_ ->]. exfalso. apply Hs2. reflexivity. }
  destruct H2 as [HU [[_ ->]|[a2 [Ha2 ->]]]].
  { exfalso. apply Hs2. reflexivity. }
  assert (Hne : sk2 ++ U ++ String a2 saved2 <> "").
  { destruct sk2; [|discriminate]. destruct U; discriminate. }
  destruct m as [M|].
  2:{ destruct H1 as [_ H1]. contradiction. }
  destruct H1 as [HM [[_ H1]|[a1 [Ha1 ->]]]]; [contradiction|].
  split; [exists M, U; auto|]. split; [exact Ev|].
  rewrite (tokens_skip " " sk1 _ Hsk1), (tokens_token " " M _ a1 HM Ha1).
  rewrite (tokens_skip " " sk2 _ Hsk2), (tokens_token " " U _ a2 HU Ha2).
  destruct (tokens " " saved2); [contradiction|]. simpl. lia.
Qed.

End RequestLineProofs.

(** ** The request-line claim *)

(** The line TAB SP TAB SP CR HTTP/1.1 CR LF.  Split at whitespace it has one
    token; split at spaces alone it has three, the third of which is not a
    version (it starts with CR).  [check_request_line] accepts it, with a TAB
    as method and as URL. *)
Lemma tab_line_is_accepted :
  tokens whitespace tab_line = ["HTTP/1.1"]
  /\ tokens " " tab_line
     = [String "009" ""; String "009" ""; String "013" ("HTTP/1.1" ++ CRLF)]
  /\ check_request_line tab_line
     = Some (Some (String "009" ""), Some (String "009" ""), "HTTP/1.1").
Proof. repeat split; reflexivity. Qed.

(** A line of four whitespace-separated tokens whose third is a URL. *)
Example tab_in_method_is_accepted :
  let line := "GET" ++ String "009" ("x http://h/ HTTP/1.1" ++ CRLF) in
  tokens whitespace line = ["GET"; "x"; "http://h/"; "HTTP/1.1"]
  /\ check_request_line line
     = Some (Some ("GET" ++ String "009" "x"), Some "http://h/", "HTTP/1.1").
Proof. split; reflexivity. Qed.

(** C4, as the program has it.  The first two tokens are delimited by the
    space character alone, the third by CR and LF alone.  For a line
    [METHOD SP URL SP VERSION] followed by nothing or by text that starts
    with CR or LF, with METHOD and URL non-empty and free of spaces and VERSION
    non-empty and free of CR and LF, the function returns exactly the three
    tokens when VERSION is HTTP/1.1 or HTTP/1.0 and fails otherwise; and it
    fails on every line that has fewer than three tokens when split at
    spaces. *)
Theorem check_request_line_spec :
  (forall M U V T : string,
      is_token " " M = true -> is_token " " U = true ->
      is_token CRLF V = true -> ends_token CRLF T = true ->
      check_request_line (M ++ " " ++ U ++ " " ++ V ++ T)
      = if supported_version V then Some (Some M, Some U, V) else None)
  /\ (forall line : string,
        (List.length (tokens " " line) < 3)%nat ->
        check_request_line line = None).
Proof.
  split.
  - exact check_request_line_form.
  - intros line Hlt.
    destruct (check_request_line line) as [[[m u] v]|] eqn:E; [|reflexivity].
    apply check_request_line_inv in E. destruct E as (_ & _ & E). lia.
Qed.

Lemma check_request_line_spec_witness :
  check_request_line ("GET" ++ " " ++ "http://example.com/" ++ " " ++ "HTTP/1.1" ++ CRLF)
  = Some (Some "GET", Some "http://example.com/", "HTTP/1.1")
  /\ check_request_line ("GET" ++ " " ++ "http://example.com/" ++ " " ++ "HTTP/2" ++ CRLF)
     = None
  /\ check_request_line "GET http://example.com/" = None.
Proof.
  destruct check_request_line_spec as [Hform Hfew].
  split; [|split].
  - apply (Hform "GET" "http://example.com/" "HTTP/1.1" CRLF); reflexivity.
  - apply (Hform "GET" "http://example.com/" "HTTP/2" CRLF); reflexivity.
  - apply (Hfew "GET http://example.com/"). simpl. lia.
Defined.

(** ** [parse_url] on targets of the documented form *)

Section UrlForms.

Lemma span_token_no_delims (s : string) : span_token "" s = (s, "").
Proof. induction s as [|a s IH]; simpl; [reflexivity|]. rewrite IH. reflexivity. Qed.

(** [strtok(NULL, "")] returns all that is left, or [NULL] when nothing is. *)
Lemma strtok_rest (s : string) :
  strtok s "" = ("", match s with EmptyString => None | _ => Some s end, "").
Proof.
  destruct s as [|a s]; [reflexivity|].
  unfold strtok. cbn [span_delims strchr].
  rewrite span_token_no_delims. reflexivity.
Qed.

Lemma uri_of_slash (rest : string) : uri_of true rest = "/" ++ rest.
Proof. unfold uri_of. cbn [negb]. rewrite strtok_rest. destruct rest; reflexivity. Qed.

Lemma strchr_app_r (t r : string) (a : ascii) :
  strchr r a = true -> strchr (t ++ r) a = true.
Proof.
  intros H. induction t as [|b t IH]; simpl; [exact H|].
  destruct (Ascii.eqb b a); [reflexivity|exact IH].
Qed.

Lemma strchr_app_false (t r : string) (a : ascii) :
  strchr t a = false -> strchr r a = false -> strchr (t ++ r) a = false.
Proof.
  intros Ht Hr. induction t as [|b t IH]; simpl; [exact Hr|].
  simpl in Ht. destruct (Ascii.eqb b a); [discriminate|]. apply IH, Ht.
Qed.

Lemma no_delim_char (a : ascii) (s : string) :
  no_delim (String a "") s = true -> strchr s a = false.
Proof.
  induction s as [|b s IH]; simpl; [reflexivity|].
  rewrite Ascii.eqb_sym. destruct (Ascii.eqb b a); simpl; [discriminate|exact IH].
Qed.

(** The documented form [http://<host>:<port><uri>]: the text before the
    first colon is the host whatever it contains, slashes included; the port
    has to fit its buffer. *)
Lemma parse_url_colon_split (X Q R : string) :
  is_token ":" X = true -> is_token "/" Q = true ->
  parse_url ("http://" ++ X ++ ":" ++ Q ++ "/" ++ R)
  = if (PTR_SIZE <=? String.length Q)%nat then Crash else Ok (X, Q, "/" ++ R).
Proof.
  intros HX HQ. unfold parse_url.
  change (strncmp0 ("http://" ++ X ++ ":" ++ Q ++ "/" ++ R) "http://")
    with (strncmp0 (X ++ ":" ++ Q ++ "/" ++ R) "").
  cbn [strncmp0].
  change (drop 7 ("http://" ++ X ++ ":" ++ Q ++ "/" ++ R))
    with (X ++ String ":" (Q ++ String "/" R)).
  rewrite strchr_app. cbn [negb].
  rewrite (strtok_token ":" X (String ":" (Q ++ String "/" R)) HX eq_refl).
  cbn [drop text_at].
  rewrite (strtok_token "/" Q (String "/" R) HQ eq_refl). cbn [drop].
  assert (Hpu : strchr (X ++ String ":" (Q ++ String "/" R)) "/" = true).
  { apply strchr_app_r. change (String ":" (Q ++ String "/" R))
      with ((String ":" Q) ++ String "/" R). apply strchr_app. }
  rewrite Hpu, uri_of_slash. reflexivity.
Qed.

(** No colon at all: the host runs to the first slash and the port is 80. *)
Lemma parse_url_host_path (H P : string) :
  is_token "/" H = true -> strchr H ":" = false -> strchr P ":" = false ->
  parse_url ("http://" ++ H ++ "/" ++ P) = Ok (H, "80", "/" ++ P).
Proof.
  intros HH Hc Pc. unfold parse_url.
  change (strncmp0 ("http://" ++ H ++ "/" ++ P) "http://")
    with (strncmp0 (H ++ "/" ++ P) "").
  cbn [strncmp0].
  change (drop 7 ("http://" ++ H ++ "/" ++ P)) with (H ++ String "/" P).
  assert (Hhp : strchr (H ++ String "/" P) ":" = false).
  { apply strchr_app_false; [exact Hc|]. simpl. exact Pc. }
  rewrite Hhp, strchr_app. cbn [negb].
  rewrite (strtok_token "/" H (String "/" P) HH eq_refl).
  cbn [drop text_at]. rewrite uri_of_slash. reflexivity.
Qed.

Lemma parse_url_host_only (H : string) :
  is_token "/" H = true -> strchr H ":" = false ->
  parse_url ("http://" ++ H) = Ok (H, "80", "/").
Proof.
  intros HH Hc. unfold parse_url.
  change (strncmp0 ("http://" ++ H) "http://") with (strncmp0 H "").
  cbn [strncmp0].
  change (drop 7 ("http://" ++ H)) with H.
  rewrite Hc. cbn [negb].
  pose proof (strtok_token "/" H "" HH eq_refl) as Ht.
  rewrite append_empty_r in Ht. rewrite Ht. cbn [drop text_at].
  unfold is_token in HH. apply andb_true_iff in HH. destruct HH as [_ HH].
  rewrite (no_delim_char _ _ HH). reflexivity.
Qed.

End UrlForms.

(** ** The handler and the cache *)

Section HandlerCache.

Variable MAXLINE : Z.
Hypothesis MAXLINE_fits : MAXLINE <= INT_MAX - MAX_OBJECT_SIZE.

(** While [valid] holds, [len] is a byte count below the ceiling. *)
Lemma relay_len_bound (chunks : list (list byte)) (st : capture) :
  forallb (chunk_ok MAXLINE) chunks = true ->
  (valid st = true -> 0 <= len st < MAX_OBJECT_SIZE) ->
  valid (fst (relay chunks st)) = true ->
  0 <= len (fst (relay chunks st)) < MAX_OBJECT_SIZE.
Proof using MAXLINE_fits.
  revert st. induction chunks as [|b chunks IH]; intros st Hok Hst; simpl.
  - exact Hst.
  - simpl in Hok. apply andb_true_iff in Hok. destruct Hok as [Hb Hok].
    destruct (List.length b =? 0)%nat; [exact Hst|].
    specialize (IH (capture_chunk st b) Hok).
    destruct (relay chunks (capture_chunk st b)) as [st' evs]. simpl in *.
    apply IH. clear IH. unfold capture_chunk.
    unfold chunk_ok in Hb. apply andb_true_iff in Hb. destruct Hb as [Hb0 Hb1].
    apply Z.ltb_lt in Hb0. apply Z.leb_le in Hb1.
    destruct (valid st) eqn:V; [|simpl; rewrite V; discriminate].
    specialize (Hst eq_refl).
    assert (Hr : int_range (len st + Z.of_nat (List.length b))).
    { unfold int_range, INT_MIN, INT_MAX, MAX_OBJECT_SIZE in *. lia. }
    simpl. rewrite (int_add_small _ _ Hr).
    destruct (len st + Z.of_nat (List.length b) <? MAX_OBJECT_SIZE)%Z eqn:L;
      simpl; [|discriminate].
    apply Z.ltb_lt in L. intros _. lia.
Qed.

Lemma parse_url_fuel (url : string) : parse_url url <> OutOfFuel.
Proof.
  unfold parse_url.
  destruct (negb _).
  - destruct (strtok _ "/") as [[sk tok] saved]. discriminate.
  - destruct (strtok _ ":") as [[sk tok] saved].
    destruct (strtok saved "/") as [[sk2 [port|]] saved2]; [|discriminate].
    destruct (PTR_SIZE <=? String.length port)%nat; discriminate.
Qed.

(** One run of [proxy], alone on the cache, when the cache satisfies the
    accounting invariant and has no duplicate keys: it returns with such a
    cache, unless [parse_url] faulted on the URL of the request. *)
Lemma proxy_keeps_cache_invariants (c : cache) (conn : connection) :
  cache_inv c -> unique_keys c -> connection_ok MAXLINE conn = true ->
  match snd (proxy c conn) with
  | Ok c' => cache_inv c' /\ unique_keys c'
  | Crash =>
      exists buf rest m url v,
        client_lines conn = buf :: rest
        /\ check_request_line buf = Some (m, Some url, v)
        /\ parse_url url = Crash
  | OutOfFuel => False
  end.
Proof using MAXLINE_fits.
  intros Hinv Hu Hconn. unfold proxy, connection_ok in *.
  destruct (client_lines conn) as [|buf headers] eqn:Hl; [simpl; auto|].
  destruct (String.length buf =? 0)%nat; [simpl; auto|].
  destruct (check_request_line buf) as [[[m u] v]|] eqn:Hc; [|simpl; auto].
  destruct (check_request_line_inv _ _ _ _ Hc) as ((M & U & -> & -> & _) & _ & _).
  pose proof (parse_url_fuel U) as Hpf.
  destruct (parse_url U) as [[[host port] uri]| |] eqn:Hp; [| |contradiction].
  2:{ simpl. exists buf, headers, (Some M), U, v. auto. }
  pose proof (get_cached_item_items c host port uri) as Hg.
  pose proof (get_cached_item_inv c host port uri Hinv) as Hinv1.
  pose proof (get_cached_item_count c host port uri) as Hcnt.
  destruct (get_cached_item c host port uri) as [[x|] c1] eqn:Eg; simpl in Hinv1, Hcnt.
  - simpl. split; [exact Hinv1|]. intros h' p' u'. rewrite Hcnt. apply Hu.
  - destruct Hg as [-> Hz].
    destruct (upstream conn) as [chunks|]; [|simpl; auto].
    pose proof (relay_len_bound chunks (mkCapture true 0 []) Hconn) as Hb.
    destruct (relay chunks (mkCapture true 0 [])) as [cap relayed]. simpl in Hb.
    destruct (valid cap) eqn:V; [|simpl; auto].
    assert (Hlen : 0 <= len cap < MAX_OBJECT_SIZE).
    { apply Hb; [intros _; unfold MAX_OBJECT_SIZE; lia|reflexivity]. }
    destruct (insert_after_miss c host port uri (cachebuf cap) (len cap)
                Hinv Hu Hlen Hz)
      as (c' & freed & Ex & Hinv' & Hu' & _).
    rewrite Ex. simpl. auto.
Qed.

End HandlerCache.

(** * Further properties of the cache *)

Section Lookup.

(** X1.  [get_cached_item] returns the first node whose host, port and uri
    are exactly the strings asked for, relinks it behind the head and keeps
    the other nodes in their order; [cachesize] and the count are untouched.
    When no node matches it returns [NULL] and the cache is unchanged. *)
Theorem get_cached_item_result (c : cache) (h p u : string) :
  match get_cached_item c h p u with
  | (Some x, c') =>
      exists before after,
        items c = (before ++ x :: after)%list
        /\ forallb (fun ci => negb (same_request h p u ci)) before = true
        /\ (ci_host x = h /\ ci_port x = p /\ ci_uri x = u)
        /\ items c' = (x :: before ++ after)%list
        /\ cachesize c' = cachesize c /\ count c' = count c
  | (None, c') =>
      c' = c
      /\ forallb (fun ci => negb (same_request h p u ci)) (items c) = true
  end.
Proof.
  unfold get_cached_item.
  destruct (find_item h p u (items c)) as [[[b x] a]|] eqn:E.
  - apply find_item_some in E. destruct E as (E & Hx & Hb).
    exists b, a. simpl.
    destruct x as [l xh xp xu d]. apply same_request_key in Hx.
    destruct Hx as (-> & -> & ->). simpl. auto 10.
  - split; [reflexivity|].
    revert E. induction (items c) as [|a l IH]; simpl; [reflexivity|].
    destruct (same_request h p u a); [discriminate|].
    destruct (find_item h p u l) as [[[? ?] ?]|]; [discriminate|].
    intros _. simpl. apply IH. reflexivity.
Qed.

(** X2.  A second lookup of the same key right after the first returns the
    same node and leaves the list as the first lookup left it. *)
Theorem get_cached_item_twice (c : cache) (h p u : string) :
  get_cached_item (snd (get_cached_item c h p u)) h p u = get_cached_item c h p u.
Proof.
  unfold get_cached_item at 2 3.
  destruct (find_item h p u (items c)) as [[[b x] a]|] eqn:E.
  - apply find_item_some in E. destruct E as (_ & Hx & _).
    unfold get_cached_item. simpl. rewrite Hx. reflexivity.
  - simpl. unfold get_cached_item. rewrite E. reflexivity.
Qed.

End Lookup.

Section EvictionProperties.

(** X3.  [delete_last_cache] unlinks exactly the last node of the list,
    subtracts its length from [cachesize] and one from the count; called on
    an empty list it dereferences [NULL]. *)
Theorem delete_last_cache_result (c : cache) :
  match delete_last_cache c with
  | Ok (c', x) =>
      items c = (items c' ++ [x])%list
      /\ cachesize c' = int_sub (cachesize c) (ci_length x)
      /\ count c' = int_sub (count c) 1
  | Crash => items c = []
  | OutOfFuel => False
  end.
Proof.
  unfold delete_last_cache.
  destruct (unlink_last (items c)) as [[l x]|] eqn:E; simpl.
  - apply unlink_last_some in E. auto.
  - apply unlink_last_none, E.
Qed.

Lemma evict_fuel_irrelevant (f1 f2 : nat) (c : cache) (len : Z) :
  (List.length (items c) < f1)%nat -> (List.length (items c) < f2)%nat ->
  evict f1 c len = evict f2 c len.
Proof.
  revert f2 c. induction f1 as [|f1 IH]; intros f2 c H1 H2; [inversion H1|].
  destruct f2 as [|f2]; [inversion H2|]. simpl.
  destruct (int_add (cachesize c) len >? MAX_CACHE_SIZE); [|reflexivity].
  destruct (delete_last_cache c) as [[c1 x]| |] eqn:E; simpl; try reflexivity.
  apply delete_last_cache_ok in E. destruct E as [El _].
  rewrite El, length_app in H1, H2. simpl in H1, H2.
  rewrite (IH f2 c1); [reflexivity | lia | lia].
Qed.

(** X4.  The loop of lines 193-195 terminates on every cache state, also one
    whose [cachesize] is out of step with the list: with one iteration per
    node and one more it has returned or faulted, and a larger bound gives
    the same result. *)
Theorem eviction_loop_terminates (fuel : nat) (c : cache) (len : Z) :
  (List.length (items c) < fuel)%nat ->
  evict fuel c len <> OutOfFuel
  /\ evict fuel c len = evict (S (List.length (items c))) c len.
Proof.
  intros H. split.
  - apply evict_fuel, H.
  - apply evict_fuel_irrelevant; [exact H|lia].
Qed.

Lemma eviction_loop_terminates_witness :
  evict 5 two_entry_cache 1048996 <> OutOfFuel
  /\ evict 5 two_entry_cache 1048996 = evict 3 two_entry_cache 1048996.
Proof.
  apply (eviction_loop_terminates 5 two_entry_cache 1048996). simpl. lia.
Defined.

Lemma total_length_upper (l : list cacheitem) :
  Forall item_bounded l ->
  total_length l <= Z.of_nat (List.length l) * (MAX_OBJECT_SIZE - 1).
Proof.
  induction 1 as [|x l Hx _ IH]; [simpl; lia|].
  unfold item_bounded in Hx. cbn [total_length List.length].
  rewrite Nat2Z.inj_succ. lia.
Qed.

(** What an insertion leaves of the old list. *)
Lemma cache_insert_keeps_nine (c : cache) h p u buf (len : Z) :
  cache_inv c -> 0 <= len < MAX_OBJECT_SIZE ->
  exists c' kept freed,
    cache_insert c h p u buf len = Ok (c', freed)
    /\ items c = (kept ++ rev freed)%list
    /\ items c' = mkItem len h p u (firstn (Z.to_nat len) buf) :: kept
    /\ (freed <> [] -> (9 <= List.length kept)%nat).
Proof.
  intros Hinv Hlen.
  destruct (cache_insert_inv c h p u buf len Hinv Hlen)
    as (c' & kept & freed & E & Hl & Hl' & _ & Hmin).
  exists c', kept, freed. refine (conj E (conj Hl (conj Hl' _))).
  intros Hne.
  destruct (exists_last Hne) as (fr & y & Hfr).
  specialize (Hmin fr y Hfr).
  pose proof (cons_items _ (inv_consistent _ Hinv)) as Hit.
  rewrite Hl, Hfr, rev_app_distr in Hit. simpl in Hit.
  apply Forall_app in Hit. destruct Hit as [Hk Hy].
  inversion Hy as [|? ? Hyb _]; subst.
  assert (Hb : Forall item_bounded (kept ++ [y])).
  { apply Forall_app. split; [exact Hk|]. constructor; [exact Hyb|constructor]. }
  apply total_length_upper in Hb. rewrite length_app, Nat2Z.inj_add in Hb.
  change (Z.of_nat (List.length [y])) with 1 in Hb.
  unfold MAX_CACHE_SIZE, MAX_OBJECT_SIZE in *. clear - Hlen Hmin Hb. lia.
Qed.

(** X5.  Ten objects below the ceiling always fit the budget: on a cache that
    satisfies the accounting invariant, an insertion into a list of at most
    nine nodes evicts nothing, and an insertion that does evict leaves at
    least the nine most recently used old nodes behind the new one. *)
Theorem insertion_keeps_nine_recent
    (c : cache) (h p u : string) (buf : list byte) (len : Z) :
  cache_inv c -> 0 <= len < MAX_OBJECT_SIZE ->
  exists c' freed,
    cache_insert c h p u buf len = Ok (c', freed)
    /\ ((List.length (items c) <= 9)%nat -> freed = [])
    /\ (freed <> [] -> (10 <= List.length (items c'))%nat)
    /\ List.length (items c') = (S (List.length (items c)) - List.length freed)%nat.
Proof.
  intros Hinv Hlen.
  destruct (cache_insert_keeps_nine c h p u buf len Hinv Hlen)
    as (c' & kept & freed & E & Hl & Hl' & H9).
  exists c', freed. split; [exact E|].
  assert (Hn : List.length (items c) = (List.length kept + List.length freed)%nat).
  { rewrite Hl, length_app, length_rev. reflexivity. }
  split; [|split].
  - intros Hle. destruct freed as [|y fr]; [reflexivity|].
    assert (Hk : (9 <= List.length kept)%nat) by (apply H9; discriminate).
    simpl in Hn. lia.
  - intros Hne. rewrite Hl'. cbn [List.length]. specialize (H9 Hne). lia.
  - rewrite Hl'. cbn [List.length]. lia.
Qed.

Lemma cache_inv_two_entry : cache_inv two_entry_cache.
Proof.
  split; [split|]; simpl.
  - unfold int_range, INT_MIN, INT_MAX. lia.
  - reflexivity.
  - repeat constructor; unfold MAX_OBJECT_SIZE; simpl; lia.
  - unfold MAX_CACHE_SIZE. lia.
Defined.

Lemma insertion_keeps_nine_recent_witness :
  exists c' freed,
    cache_insert two_entry_cache "c.example" "80" "/" [] 100000 = Ok (c', freed)
    /\ ((List.length (items two_entry_cache) <= 9)%nat -> freed = [])
    /\ (freed <> [] -> (10 <= List.length (items c'))%nat)
    /\ List.length (items c')
       = (S (List.length (items two_entry_cache)) - List.length freed)%nat.
Proof.
  apply (insertion_keeps_nine_recent two_entry_cache "c.example" "80" "/" [] 100000).
  - exact cache_inv_two_entry.
  - unfold MAX_OBJECT_SIZE. lia.
Defined.

(** X6.  Recency protects: on a cache that satisfies the accounting
    invariant, the node a lookup has just returned is not evicted by the
    insertion that follows; it is the second node afterwards, behind the new
    one. *)
Theorem promoted_entry_survives_insertion
    (c c1 : cache) (x : cacheitem) (h p u h' p' u' : string)
    (buf : list byte) (len : Z) :
  cache_inv c ->
  get_cached_item c h p u = (Some x, c1) ->
  0 <= len < MAX_OBJECT_SIZE ->
  exists c2 freed rest,
    cache_insert c1 h' p' u' buf len = Ok (c2, freed)
    /\ items c2 = mkItem len h' p' u' (firstn (Z.to_nat len) buf) :: x :: rest.
Proof.
  intros Hinv Hget Hlen.
  pose proof (get_cached_item_inv c h p u Hinv) as Hinv1.
  pose proof (get_cached_item_items c h p u) as Hg.
  rewrite Hget in Hinv1, Hg. simpl in Hinv1.
  destruct Hg as (b & a & _ & Hl1 & _).
  destruct (cache_insert_keeps_nine c1 h' p' u' buf len Hinv1 Hlen)
    as (c2 & kept & freed & E & Hl & Hl' & H9).
  destruct kept as [|k kept].
  - exfalso. simpl in Hl. rewrite Hl1 in Hl.
    assert (Hne : freed <> []) by (intros ->; discriminate Hl).
    specialize (H9 Hne). simpl in H9. lia.
  - rewrite Hl1 in Hl. simpl in Hl. inversion Hl; subst k.
    exists c2, freed, kept. auto.
Qed.

Lemma promoted_entry_survives_insertion_witness :
  exists c2 freed rest,
    cache_insert
      (mkCache [mkItem 3 "example.com" "80" "/" [x61; x62; x63];
                mkItem 2 "b.example" "80" "/" [x68; x69]] 2 5)
      "c.example" "80" "/" [] 100000 = Ok (c2, freed)
    /\ items c2 = mkItem 100000 "c.example" "80" "/" (firstn (Z.to_nat 100000) [])
                  :: mkItem 3 "example.com" "80" "/" [x61; x62; x63] :: rest.
Proof.
  apply (promoted_entry_survives_insertion two_entry_cache _ _
           "example.com" "80" "/" "c.example" "80" "/" [] 100000).
  - exact cache_inv_two_entry.
  - reflexivity.
  - unfold MAX_OBJECT_SIZE. lia.
Defined.

End EvictionProperties.

(** * Further properties of [parse_url] *)

Section UrlProperties.

Lemma span_delims_all (delim s : string) :
  all_delim delim s = true -> span_delims delim s = (s, "").
Proof.
  induction s as [|a s IH]; simpl; [reflexivity|].
  intros H. apply andb_true_iff in H. destruct H as [Ha Hs].
  rewrite Ha, (IH Hs). reflexivity.
Qed.

Lemma strtok_all_delims (delim s : string) :
  all_delim delim s = true -> strtok s delim = (s, None, "").
Proof. intros H. unfold strtok. rewrite (span_delims_all _ _ H). reflexivity. Qed.

Lemma uri_of_shape (pu : bool) (saved : string) :
  exists r, uri_of pu saved = "/" ++ r.
Proof.
  unfold uri_of. destruct pu; cbn [negb]; [|exists ""; reflexivity].
  destruct (strtok saved "") as [[sk [r|]] sv]; eauto. exists "". reflexivity.
Qed.

(** X7.  Whatever the target, when [parse_url] returns the uri starts with a
    slash and the port is not empty and contains no slash. *)
Theorem parse_url_result_shape (url host port uri : string) :
  parse_url url = Ok (host, port, uri) ->
  (exists r, uri = "/" ++ r) /\ is_token "/" port = true.
Proof.
  unfold parse_url.
  set (u := if strncmp0 url "http://" then drop 7 url else url).
  destruct (negb (strchr u ":")).
  - destruct (strtok u "/") as [[sk tok] saved].
    intros H; inversion H; subst. split; [apply uri_of_shape|reflexivity].
  - destruct (strtok u ":") as [[sk tok] saved].
    destruct (strtok saved "/") as [[sk2 tok2] saved2] eqn:E2.
    destruct tok2 as [q|]; [|discriminate].
    destruct (PTR_SIZE <=? String.length q)%nat; [discriminate|].
    intros H; inversion H; subst. split; [apply uri_of_shape|].
    apply strtok_inv in E2. apply E2.
Qed.

Lemma parse_url_result_shape_witness :
  (exists r, "/a/b" = "/" ++ r) /\ is_token "/" "8080" = true.
Proof.
  apply (parse_url_result_shape "http://example.com:8080/a/b" "example.com").
  reflexivity.
Defined.

(** X8.  A target [http://X:Q/R], with X not empty and free of colons and Q
    not empty and free of slashes.  When Q has at most seven characters it
    resolves to host X, port Q and uri [/R]; nothing is asked of X beyond
    the above, so a slash in X ends up in the host.  When Q has eight
    characters or more, the [strcpy] of line 266 writes past the eight bytes
    that line 265 allocates for the port. *)
Theorem parse_url_with_port (X Q R : string) :
  is_token ":" X = true -> is_token "/" Q = true ->
  parse_url ("http://" ++ X ++ ":" ++ Q ++ "/" ++ R)
  = if (String.length Q <? 8)%nat then Ok (X, Q, "/" ++ R) else Crash.
Proof.
  intros HX HQ. rewrite (parse_url_colon_split X Q R HX HQ). unfold PTR_SIZE.
  destruct (Nat.leb_spec 8 (String.length Q)), (Nat.ltb_spec (String.length Q) 8);
    try reflexivity; lia.
Qed.

Lemma parse_url_with_port_witness :
  parse_url ("http://" ++ "origin" ++ ":" ++ "9000" ++ "/" ++ "page?x=1:2")
  = Ok ("origin", "9000", "/" ++ "page?x=1:2")
  /\ parse_url ("http://" ++ "origin" ++ ":" ++ "12345678" ++ "/" ++ "page")
     = Crash.
Proof.
  split.
  - apply (parse_url_with_port "origin" "9000" "page?x=1:2"); reflexivity.
  - apply (parse_url_with_port "origin" "12345678" "page"); reflexivity.
Defined.

(** X9.  A target [http://H/P] without any colon, H not empty and free of
    slashes, resolves to host H, port 80 and uri [/P]. *)
Theorem parse_url_default_port (H P : string) :
  is_token "/" H = true -> strchr H ":" = false -> strchr P ":" = false ->
  parse_url ("http://" ++ H ++ "/" ++ P) = Ok (H, "80", "/" ++ P).
Proof. apply parse_url_host_path. Qed.

Lemma parse_url_default_port_witness :
  parse_url ("http://" ++ "example.com" ++ "/" ++ "a/b.html")
  = Ok ("example.com", "80", "/" ++ "a/b.html").
Proof. apply (parse_url_default_port "example.com" "a/b.html"); reflexivity. Defined.

(** X10.  A target [http://H] that is a bare host, without colon or slash,
    resolves to host H, port 80 and uri [/]. *)
Theorem parse_url_bare_host (H : string) :
  is_token "/" H = true -> strchr H ":" = false ->
  parse_url ("http://" ++ H) = Ok (H, "80", "/").
Proof. apply parse_url_host_only. Qed.

Lemma parse_url_bare_host_witness :
  parse_url ("http://" ++ "example.com") = Ok ("example.com", "80", "/").
Proof. apply (parse_url_bare_host "example.com"); reflexivity. Defined.

(** X11.  A target [http://X:] followed by nothing or by slashes only, X not
    empty and free of colons, makes [parse_url] fault: [strtok] finds no port
    and the [strcpy] of line 266 reads [NULL]. *)
Theorem parse_url_faults_on_empty_port (X S : string) :
  is_token ":" X = true -> all_delim "/" S = true ->
  parse_url ("http://" ++ X ++ ":" ++ S) = Crash.
Proof.
  intros HX HS. unfold parse_url.
  change (strncmp0 ("http://" ++ X ++ ":" ++ S) "http://")
    with (strncmp0 (X ++ ":" ++ S) "").
  cbn [strncmp0].
  change (drop 7 ("http://" ++ X ++ ":" ++ S)) with (X ++ String ":" S).
  rewrite strchr_app. cbn [negb].
  rewrite (strtok_token ":" X (String ":" S) HX eq_refl). cbn [drop text_at].
  rewrite (strtok_all_delims "/" S HS). reflexivity.
Qed.

Lemma parse_url_faults_on_empty_port_witness :
  parse_url ("http://" ++ "example.com" ++ ":" ++ "//") = Crash.
Proof. apply (parse_url_faults_on_empty_port "example.com" "//"); reflexivity. Defined.

End UrlProperties.

(** * Further properties of [check_request_line] *)

Section RequestLineProperties.

Lemma span_delims_app (delim sk r : string) :
  all_delim delim sk = true ->
  match r with EmptyString => True | String a _ => strchr delim a = false end ->
  span_delims delim (sk ++ r) = (sk, r).
Proof.
  intros Hsk Hr. induction sk as [|a sk IH]; simpl.
  - destruct r as [|b r]; [reflexivity|]. simpl. rewrite Hr. reflexivity.
  - simpl in Hsk. apply andb_true_iff in Hsk. destruct Hsk as [Ha Hsk].
    rewrite Ha, (IH Hsk). reflexivity.
Qed.

(** [strtok] on delimiters followed by a token. *)
Lemma strtok_skip_token (delim sk t r : string) :
  all_delim delim sk = true -> is_token delim t = true ->
  ends_token delim r = true ->
  strtok (sk ++ t ++ r) delim = (sk, Some t, drop 1 r).
Proof.
  intros Hsk Ht Hr. unfold is_token in Ht.
  apply andb_true_iff in Ht. destruct Ht as [Hne Ht].
  destruct t as [|a t]; [discriminate Hne|].
  pose proof (span_token_app delim (String a t) r Ht Hr) as Hsp.
  simpl in Ht. apply andb_true_iff in Ht. destruct Ht as [Ha _].
  apply negb_true_iff in Ha.
  unfold strtok. rewrite (span_delims_app delim sk (String a t ++ r) Hsk Ha).
  change (String a t ++ r) with (String a (t ++ r)) in *.
  rewrite Hsp. reflexivity.
Qed.

(** X12.  A line that [check_request_line] accepts yields a method and a URL
    that are not [NULL], not empty and free of spaces, and a version that is
    HTTP/1.1 or HTTP/1.0; the line has at least three space-separated
    tokens. *)
Theorem accepted_request_line (line : string) (m u : option string) (v : string) :
  check_request_line line = Some (m, u, v) ->
  (exists M U, m = Some M /\ u = Some U
               /\ is_token " " M = true /\ is_token " " U = true)
  /\ (v = "HTTP/1.1" \/ v = "HTTP/1.0")
  /\ (3 <= List.length (tokens " " line))%nat.
Proof.
  intros H. destruct (check_request_line_inv line m u v H) as (Hmu & Hv & Ht).
  split; [exact Hmu|]. split; [apply supported_version_inv, Hv|exact Ht].
Qed.

Lemma accepted_request_line_witness :
  (exists M U, Some "GET" = Some M /\ Some "http://example.com/" = Some U
               /\ is_token " " M = true /\ is_token " " U = true)
  /\ ("HTTP/1.0" = "HTTP/1.1" \/ "HTTP/1.0" = "HTTP/1.0")
  /\ (3 <= List.length (tokens " " ("GET http://example.com/ HTTP/1.0" ++ CRLF)))%nat.
Proof.
  apply (accepted_request_line ("GET http://example.com/ HTTP/1.0" ++ CRLF)).
  reflexivity.
Defined.

(** X13.  Spaces before the method and extra spaces before the URL are
    skipped: with S1 and S2 made of spaces only, the line
    [S1 METHOD SP S2 URL SP VERSION] (followed by nothing or by text starting
    with CR or LF) is treated like [METHOD SP URL SP VERSION]. *)
Theorem check_request_line_skips_spaces (S1 S2 M U V T : string) :
  all_delim " " S1 = true -> all_delim " " S2 = true ->
  is_token " " M = true -> is_token " " U = true ->
  is_token CRLF V = true -> ends_token CRLF T = true ->
  check_request_line (S1 ++ M ++ " " ++ S2 ++ U ++ " " ++ V ++ T)
  = if supported_version V then Some (Some M, Some U, V) else None.
Proof.
  intros H1 H2 HM HU HV HT. unfold check_request_line.
  assert (Hsp : strchr (S1 ++ M ++ " " ++ S2 ++ U ++ " " ++ V ++ T) " " = true).
  { apply strchr_app_r.
    change (M ++ " " ++ S2 ++ U ++ " " ++ V ++ T)
      with (M ++ String " " (S2 ++ U ++ " " ++ V ++ T)).
    apply strchr_app. }
  rewrite Hsp. cbn [negb].
  change (M ++ " " ++ S2 ++ U ++ " " ++ V ++ T)
    with (M ++ String " " (S2 ++ U ++ " " ++ V ++ T)).
  rewrite (strtok_skip_token " " S1 M (String " " (S2 ++ U ++ " " ++ V ++ T))
             H1 HM eq_refl). cbn [drop].
  change (U ++ " " ++ V ++ T) with (U ++ String " " (V ++ T)).
  rewrite (strtok_skip_token " " S2 U (String " " (V ++ T)) H2 HU eq_refl).
  cbn [drop].
  rewrite (strtok_token CRLF V T HV HT).
  destruct (supported_version V); reflexivity.
Qed.

Lemma check_request_line_skips_spaces_witness :
  check_request_line
    ("  " ++ "GET" ++ " " ++ "   " ++ "http://example.com/" ++ " " ++ "HTTP/1.1" ++ CRLF)
  = Some (Some "GET", Some "http://example.com/", "HTTP/1.1").
Proof.
  apply (check_request_line_skips_spaces "  " "   " "GET" "http://example.com/"
           "HTTP/1.1" CRLF); reflexivity.
Defined.

(** X14.  A second space after the URL is not skipped: it becomes the first
    character of the version, so the line fails whatever follows. *)
Theorem check_request_line_space_before_version (M U R : string) :
  is_token " " M = true -> is_token " " U = true ->
  check_request_line (M ++ " " ++ U ++ " " ++ " " ++ R) = None.
Proof.
  intros HM HU. unfold check_request_line.
  change (M ++ " " ++ U ++ " " ++ " " ++ R)
    with (M ++ String " " (U ++ " " ++ " " ++ R)).
  rewrite strchr_app. cbn [negb].
  rewrite (strtok_token " " M (String " " (U ++ " " ++ " " ++ R)) HM eq_refl).
  cbn [drop].
  change (U ++ " " ++ " " ++ R) with (U ++ String " " (String " " R)).
  rewrite (strtok_token " " U (String " " (String " " R)) HU eq_refl). cbn [drop].
  assert (Hst : exists p sv,
            strtok (String " " R) CRLF = ("", Some (String " " p), sv)).
  { unfold strtok. simpl. destruct (span_token CRLF R) as [p r]. eauto. }
  destruct Hst as (p & sv & ->). reflexivity.
Qed.

Lemma check_request_line_space_before_version_witness :
  check_request_line
    ("GET" ++ " " ++ "http://example.com/" ++ " " ++ " " ++ ("HTTP/1.1" ++ CRLF))
  = None.
Proof.
  apply (check_request_line_space_before_version "GET" "http://example.com/"
           ("HTTP/1.1" ++ CRLF)); reflexivity.
Defined.

End RequestLineProperties.

(** * Further properties of the handler *)

Section Capture.

Lemma total_bytes_concat (chunks : list (list byte)) :
  total_bytes chunks = Z.of_nat (List.length (List.concat chunks)).
Proof.
  induction chunks as [|b chunks IH]; simpl; [reflexivity|].
  rewrite length_app, Nat2Z.inj_add, IH. reflexivity.
Qed.

Lemma total_bytes_nonneg (chunks : list (list byte)) : 0 <= total_bytes chunks.
Proof. rewrite total_bytes_concat. lia. Qed.

Lemma relay_small (chunks : list (list byte)) (st : capture) :
  forallb (fun b => negb (List.length b =? 0)%nat) chunks = true ->
  valid st = true -> 0 <= len st ->
  len st + total_bytes chunks < MAX_OBJECT_SIZE ->
  relay chunks st
  = (mkCapture true (len st + total_bytes chunks) (cachebuf st ++ List.concat chunks),
     map ClientWrite chunks).
Proof.
  revert st. induction chunks as [|b chunks IH]; intros st Hne Hv H0 Hlt; simpl.
  - rewrite Z.add_0_r, app_nil_r. destruct st; simpl in *. subst. reflexivity.
  - simpl in Hne. apply andb_true_iff in Hne. destruct Hne as [Hb Hne].
    apply negb_true_iff in Hb. rewrite Hb.
    simpl in Hlt. pose proof (total_bytes_nonneg chunks) as Hnn.
    assert (Hr : int_range (len st + Z.of_nat (List.length b))).
    { unfold int_range, INT_MIN, INT_MAX, MAX_OBJECT_SIZE in *. lia. }
    assert (Hc : capture_chunk st b
                 = mkCapture true (len st + Z.of_nat (List.length b))
                             (cachebuf st ++ b)).
    { unfold capture_chunk. rewrite Hv, (int_add_small _ _ Hr). simpl.
      destruct (Z.ltb_spec (len st + Z.of_nat (List.length b)) MAX_OBJECT_SIZE);
        [reflexivity|lia]. }
    rewrite Hc, IH; simpl; try assumption; try lia.
    rewrite <- app_assoc, Z.add_assoc. reflexivity.
Qed.

(** X15.  A response that stays below the ceiling is captured whole: when
    the chunks read are not empty and add up to less than [MAX_OBJECT_SIZE],
    the loop of lines 180-188 ends with [valid] set, [len] equal to the number
    of bytes read and the buffer holding the chunks in order, and has written
    each chunk to the client. *)
Theorem small_response_is_captured (chunks : list (list byte)) :
  forallb (fun b => negb (List.length b =? 0)%nat) chunks = true ->
  total_bytes chunks < MAX_OBJECT_SIZE ->
  relay chunks (mkCapture true 0 [])
  = (mkCapture true (total_bytes chunks) (List.concat chunks), map ClientWrite chunks).
Proof.
  intros Hne Hlt.
  apply (relay_small chunks (mkCapture true 0 []) Hne eq_refl (Z.le_refl 0) Hlt).
Qed.

Lemma small_response_is_captured_witness :
  relay small_response (mkCapture true 0 [])
  = (mkCapture true (total_bytes small_response) (List.concat small_response),
     map ClientWrite small_response).
Proof.
  apply (small_response_is_captured small_response).
  - reflexivity.
  - vm_compute. reflexivity.
Defined.

Lemma relay_invalid_state (chunks : list (list byte)) (st : capture) :
  valid st = false -> fst (relay chunks st) = st.
Proof.
  revert st. induction chunks as [|b chunks IH]; intros st H; simpl; [reflexivity|].
  destruct (List.length b =? 0)%nat; [reflexivity|].
  assert (Hc : capture_chunk st b = st).
  { unfold capture_chunk. rewrite H. reflexivity. }
  rewrite Hc. specialize (IH st H).
  destruct (relay chunks st) as [st' evs]. exact IH.
Qed.

Variable MAXLINE : Z.
Hypothesis MAXLINE_fits : MAXLINE <= INT_MAX - MAX_OBJECT_SIZE.

Lemma relay_buffer (chunks : list (list byte)) (st : capture) :
  forallb (chunk_ok MAXLINE) chunks = true ->
  len st = Z.of_nat (List.length (cachebuf st)) -> len st < MAX_OBJECT_SIZE ->
  len (fst (relay chunks st)) = Z.of_nat (List.length (cachebuf (fst (relay chunks st))))
  /\ len (fst (relay chunks st)) < MAX_OBJECT_SIZE
  /\ exists rest,
       (cachebuf st ++ List.concat chunks)%list
       = (cachebuf (fst (relay chunks st)) ++ rest)%list.
Proof using MAXLINE_fits.
  revert st. induction chunks as [|b chunks IH]; intros st Hok Hl Hlt.
  - simpl. split; [exact Hl|]. split; [exact Hlt|]. exists []. reflexivity.
  - simpl in Hok. apply andb_true_iff in Hok. destruct Hok as [Hb Hok].
    unfold chunk_ok in Hb. apply andb_true_iff in Hb. destruct Hb as [Hb0 Hb1].
    apply Z.ltb_lt in Hb0. apply Z.leb_le in Hb1.
    cbn [relay]. destruct (Nat.eqb_spec (List.length b) 0) as [E|_]; [lia|].
    assert (Hfst : fst (let (st', evs) := relay chunks (capture_chunk st b) in
                        (st', ClientWrite b :: evs))
                   = fst (relay chunks (capture_chunk st b))).
    { destruct (relay chunks (capture_chunk st b)); reflexivity. }
    rewrite Hfst. clear Hfst. cbn [List.concat].
    assert (Hr : int_range (len st + Z.of_nat (List.length b))).
    { unfold int_range, INT_MIN, INT_MAX, MAX_OBJECT_SIZE in *. lia. }
    destruct (valid st && (int_add (len st) (Z.of_nat (List.length b)) <? MAX_OBJECT_SIZE)%Z)
      eqn:T.
    + assert (Hc : capture_chunk st b
                   = mkCapture true (len st + Z.of_nat (List.length b))
                               (cachebuf st ++ b)).
      { unfold capture_chunk. rewrite T, (int_add_small _ _ Hr). reflexivity. }
      apply andb_true_iff in T. destruct T as [_ T].
      rewrite (int_add_small _ _ Hr) in T. apply Z.ltb_lt in T.
      rewrite Hc. specialize (IH (mkCapture true (len st + Z.of_nat (List.length b))
                                            (cachebuf st ++ b)) Hok).
      cbn [len cachebuf] in IH. rewrite length_app, Nat2Z.inj_add, <- Hl in IH.
      destruct (IH eq_refl T) as (I1 & I2 & rest & I3).
      split; [exact I1|]. split; [exact I2|]. exists rest.
      rewrite <- I3, <- app_assoc. reflexivity.
    + assert (Hc : valid (capture_chunk st b) = false
                   /\ cachebuf (capture_chunk st b) = cachebuf st
                   /\ len (capture_chunk st b) = len st).
      { unfold capture_chunk. rewrite T. destruct (valid st) eqn:V; simpl; auto. }
      destruct Hc as (Hv & Hcb & Hcl).
      rewrite (relay_invalid_state chunks _ Hv), Hcb, Hcl.
      split; [exact Hl|]. split; [exact Hlt|]. eauto.
Qed.

(** X16.  The capture never leaves the buffer of [MAX_OBJECT_SIZE] bytes:
    whatever the chunks (each of 1 to [MAXLINE] bytes), at the end of the loop
    [len] is the number of bytes copied, it is below [MAX_OBJECT_SIZE], and
    the bytes copied are the first [len] bytes of the response. *)
Theorem capture_stays_within_buffer (chunks : list (list byte)) :
  forallb (chunk_ok MAXLINE) chunks = true ->
  let cap := fst (relay chunks (mkCapture true 0 [])) in
  len cap = Z.of_nat (List.length (cachebuf cap))
  /\ len cap < MAX_OBJECT_SIZE
  /\ cachebuf cap = firstn (Z.to_nat (len cap)) (List.concat chunks).
Proof using MAXLINE_fits.
  intros Hok cap.
  destruct (relay_buffer chunks (mkCapture true 0 []) Hok eq_refl)
    as (H1 & H2 & rest & H3).
  { unfold MAX_OBJECT_SIZE. simpl. lia. }
  fold cap in H1, H2, H3. split; [exact H1|]. split; [exact H2|].
  cbn [cachebuf app] in H3. rewrite H3, H1, Nat2Z.id.
  rewrite firstn_app, firstn_all, Nat.sub_diag. simpl. rewrite app_nil_r. reflexivity.
Qed.

End Capture.

Lemma capture_stays_within_buffer_witness :
  let cap := fst (relay large_response (mkCapture true 0 [])) in
  len cap = Z.of_nat (List.length (cachebuf cap))
  /\ len cap < MAX_OBJECT_SIZE
  /\ cachebuf cap = firstn (Z.to_nat (len cap)) (List.concat large_response).
Proof.
  apply (capture_stays_within_buffer 8192).
  - vm_compute. discriminate.
  - vm_compute. reflexivity.
Defined.

Section Exchanges.

Lemma client_writes_chunks (chunks : list (list byte)) :
  client_writes (map ClientWrite chunks) = chunks.
Proof. induction chunks as [|b l IH]; simpl; [reflexivity|]. f_equal. exact IH. Qed.

Lemma cache_eta (c : cache) (l : list cacheitem) :
  items c = l -> mkCache l (count c) (cachesize c) = c.
Proof. destruct c; simpl; intros ->; reflexivity. Qed.

(** X17.  A response below the ceiling is cached and then served from the
    cache.  On a cache that satisfies the accounting invariant, a request
    that misses, with chunks that add up to less than [MAX_OBJECT_SIZE], is
    relayed chunk by chunk and the run returns; any later request with the
    same request line on the cache it leaves is answered with one write of
    the same bytes and a close, without a connect (whatever [upstream] is)
    and without a write to a server, and leaves that cache as it is. *)
Theorem cached_response_is_served
    (c : cache) (conn : connection) (buf : string) (headers : list string)
    (method url version host port uri : string) (chunks : list (list byte)) :
  cache_inv c ->
  client_lines conn = buf :: headers ->
  check_request_line buf = Some (Some method, Some url, version) ->
  parse_url url = Ok (host, port, uri) ->
  fst (get_cached_item c host port uri) = None ->
  upstream conn = Some chunks ->
  forallb (fun b => negb (List.length b =? 0)%nat) chunks = true ->
  total_bytes chunks < MAX_OBJECT_SIZE ->
  exists c1,
    snd (proxy c conn) = Ok c1
    /\ client_writes (fst (proxy c conn)) = chunks
    /\ forall conn2 headers2,
         client_lines conn2 = buf :: headers2 ->
         proxy c1 conn2 = ([ClientWrite (List.concat chunks); ClientClose], Ok c1).
Proof.
  intros Hinv Hlines Hcheck Hparse Hmiss Hup Hne Hlt.
  rewrite (proxy_relay c conn buf headers method url version host port uri
             Hlines Hcheck Hparse Hmiss chunks Hup). cbv zeta.
  assert (Hrel : relay chunks (mkCapture true 0 [])
                 = (mkCapture true (total_bytes chunks) (List.concat chunks),
                    map ClientWrite chunks)).
  { apply (relay_small chunks (mkCapture true 0 []) Hne eq_refl (Z.le_refl 0) Hlt). }
  rewrite Hrel. cbn [valid len cachebuf].
  pose proof (total_bytes_nonneg chunks) as Hnn.
  destruct (cache_insert_inv c host port uri (List.concat chunks) (total_bytes chunks)
              Hinv (conj Hnn Hlt))
    as (c1 & kept & freed & E & _ & Hl1 & _ & _).
  rewrite E. cbn [fst snd]. exists c1. split; [reflexivity|]. split.
  - change (client_writes ((ServerWrite ?x :: ?l) ++ ?r))
      with (client_writes (l ++ r)).
    rewrite !client_writes_app, forward_headers_client, client_writes_chunks,
      client_writes_free_items. simpl. apply app_nil_r.
  - intros conn2 headers2 Hl2. unfold proxy.
    rewrite Hl2, (check_request_line_nonempty _ _ Hcheck), Hcheck, Hparse.
    unfold get_cached_item. rewrite Hl1. cbn [find_item].
    rewrite same_request_refl. cbn [app ci_length ci_data].
    rewrite <- Hl1, (cache_eta c1 (items c1) eq_refl).
    rewrite total_bytes_concat, Nat2Z.id, firstn_all, firstn_all. reflexivity.
Qed.

Lemma cached_response_is_served_witness :
  exists c1,
    snd (proxy cache_init (sample_request small_response)) = Ok c1
    /\ client_writes (fst (proxy cache_init (sample_request small_response)))
       = small_response
    /\ forall conn2 headers2,
         client_lines conn2
         = ("GET http://origin:9000/page HTTP/1.1" ++ CRLF) :: headers2 ->
         proxy c1 conn2
         = ([ClientWrite (List.concat small_response); ClientClose], Ok c1).
Proof.
  apply (cached_response_is_served cache_init (sample_request small_response)
           ("GET http://origin:9000/page HTTP/1.1" ++ CRLF) sample_headers
           "GET" "http://origin:9000/page" "HTTP/1.1" "origin" "9000" "/page"
           small_response); try reflexivity.
  exact cache_init_inv.
Defined.

(** X18.  A request whose first line has fewer than three space-separated
    tokens, like an empty request, is answered with the 400 payload and a
    close; nothing is sent to a server and the cache is not touched. *)
Theorem malformed_request_is_refused (c : cache) (conn : connection) :
  match client_lines conn with
  | [] => True
  | buf :: _ => (List.length (tokens " " buf) < 3)%nat
  end ->
  proxy c conn = ([ClientWrite bad_request_bytes; ClientClose], Ok c).
Proof.
  unfold proxy. destruct (client_lines conn) as [|buf rest]; [reflexivity|].
  intros Hlt. destruct (String.length buf =? 0)%nat; [reflexivity|].
  destruct (check_request_line buf) as [[[m u] v]|] eqn:E; [|reflexivity].
  apply check_request_line_inv in E. destruct E as (_ & _ & E). lia.
Qed.

Lemma malformed_request_is_refused_witness :
  proxy one_entry_cache (mkConn ["GET /index.html" ++ CRLF] None)
  = ([ClientWrite bad_request_bytes; ClientClose], Ok one_entry_cache).
Proof.
  apply (malformed_request_is_refused one_entry_cache
           (mkConn ["GET /index.html" ++ CRLF] None)).
  simpl. lia.
Defined.

Variable MAXLINE : Z.
Hypothesis MAXLINE_fits : MAXLINE <= INT_MAX - MAX_OBJECT_SIZE.

Lemma proxy_data_sound (c : cache) (conn : connection) :
  cache_inv c -> Forall data_sound (items c) -> connection_ok MAXLINE conn = true ->
  match snd (proxy c conn) with
  | Ok c' => Forall data_sound (items c')
  | _ => True
  end.
Proof using MAXLINE_fits.
  intros Hinv Hds Hconn. unfold proxy, connection_ok in *.
  destruct (client_lines conn) as [|buf headers]; [exact Hds|].
  destruct (String.length buf =? 0)%nat; [exact Hds|].
  destruct (check_request_line buf) as [[[m [u|]] v]|]; [| exact I | exact Hds].
  destruct (parse_url u) as [[[host port] uri]| |]; [| exact I | exact I].
  pose proof (get_cached_item_items c host port uri) as Hg.
  destruct (get_cached_item c host port uri) as [[x|] c1].
  - destruct Hg as (b & a & Hl & Hl' & _). cbn [snd]. rewrite Hl'.
    rewrite Hl in Hds. apply Forall_app in Hds. destruct Hds as [Hb Hxa].
    inversion Hxa; subst. constructor; [assumption|]. apply Forall_app. auto.
  - destruct Hg as [-> _].
    destruct (upstream conn) as [chunks|]; [|exact Hds].
    destruct m as [m|]; [|exact I].
    pose proof (relay_len_bound MAXLINE MAXLINE_fits chunks (mkCapture true 0 []) Hconn)
      as Hb.
    destruct (relay_buffer MAXLINE MAXLINE_fits chunks (mkCapture true 0 []) Hconn eq_refl)
      as (Hlen & _ & _).
    { unfold MAX_OBJECT_SIZE. simpl. lia. }
    destruct (relay chunks (mkCapture true 0 [])) as [cap relayed].
    cbn [fst] in Hb, Hlen.
    destruct (valid cap) eqn:V; [|exact Hds].
    assert (Hbound : 0 <= len cap < MAX_OBJECT_SIZE).
    { apply Hb; [intros _; unfold MAX_OBJECT_SIZE; simpl; lia|reflexivity]. }
    destruct (cache_insert_inv c host port uri (cachebuf cap) (len cap) Hinv Hbound)
      as (c' & kept & freed & E & Hl & Hl' & _ & _).
    rewrite E. cbn [snd]. rewrite Hl'.
    rewrite Hl in Hds. apply Forall_app in Hds. destruct Hds as [Hk _].
    constructor; [|exact Hk].
    unfold data_sound. cbn [ci_length ci_data].
    rewrite Hlen at 2. rewrite Nat2Z.id, firstn_all. exact Hlen.
Qed.

(** X19.  One run of the handler, with no other handler at work on the cache
    in between, keeps the cache well formed.  On a cache in which [cachesize]
    is the sum of the lengths and within the budget, no key occurs twice and
    every node's length is the size of its data, a run on a connection whose
    chunks have 1 to [MAXLINE] bytes returns with a cache that has these
    three properties again.  The one other outcome is a fault of [parse_url]
    on the URL of the request: at the [strcpy] of line 266, for want of a
    port behind the colon or with a port of eight characters or more. *)
Theorem handler_keeps_cache_well_formed (c : cache) (conn : connection) :
  cache_inv c -> unique_keys c -> Forall data_sound (items c) ->
  connection_ok MAXLINE conn = true ->
  match snd (proxy c conn) with
  | Ok c' => cache_inv c' /\ unique_keys c' /\ Forall data_sound (items c')
  | Crash =>
      exists buf rest m url v,
        client_lines conn = buf :: rest
        /\ check_request_line buf = Some (m, Some url, v)
        /\ parse_url url = Crash
  | OutOfFuel => False
  end.
Proof using MAXLINE_fits.
  intros Hinv Hu Hds Hconn.
  pose proof (proxy_keeps_cache_invariants MAXLINE MAXLINE_fits c conn Hinv Hu Hconn) as H1.
  pose proof (proxy_data_sound c conn Hinv Hds Hconn) as H2.
  destruct (snd (proxy c conn)) as [c'| |]; [|exact H1|exact H1].
  destruct H1 as [Ha Hb]. auto.
Qed.

End Exchanges.

Lemma handler_keeps_cache_well_formed_witness :
  match snd (proxy one_entry_cache (sample_request small_response)) with
  | Ok c' => cache_inv c' /\ unique_keys c' /\ Forall data_sound (items c')
  | Crash =>
      exists buf rest m url v,
        client_lines (sample_request small_response) = buf :: rest
        /\ check_request_line buf = Some (m, Some url, v)
        /\ parse_url url = Crash
  | OutOfFuel => False
  end.
Proof.
  apply (handler_keeps_cache_well_formed 8192).
  - vm_compute. discriminate.
  - split; [split|]; simpl.
    + unfold int_range, INT_MIN, INT_MAX. lia.
    + reflexivity.
    + repeat constructor; unfold MAX_OBJECT_SIZE; simpl; lia.
    + unfold MAX_CACHE_SIZE. lia.
  - intros h p u. unfold count_key. simpl.
    destruct (same_request h p u _); simpl; lia.
  - repeat constructor.
  - reflexivity.
Defined.

Section HitAndCount.

(** X20.  A hit never reaches a server.  When the lookup of the resolved
    key finds a node whose length is the size of its data, the handler writes
    exactly the stored bytes to the client and closes; it does not connect
    (the outcome does not depend on [upstream]), writes nothing to a server
    and inserts nothing. *)
Theorem cache_hit_is_served
    (c c1 : cache) (conn : connection) (buf : string) (headers : list string)
    (method : option string) (url version host port uri : string) (x : cacheitem) :
  client_lines conn = buf :: headers ->
  check_request_line buf = Some (method, Some url, version) ->
  parse_url url = Ok (host, port, uri) ->
  get_cached_item c host port uri = (Some x, c1) ->
  data_sound x ->
  proxy c conn = ([ClientWrite (ci_data x); ClientClose], Ok c1)
  /\ List.length (items c1) = List.length (items c)
  /\ cachesize c1 = cachesize c.
Proof.
  intros Hlines Hcheck Hparse Hget Hx. unfold proxy.
  rewrite Hlines, (check_request_line_nonempty _ _ Hcheck), Hcheck, Hparse, Hget.
  unfold data_sound in Hx. rewrite Hx, Nat2Z.id, firstn_all.
  split; [reflexivity|].
  pose proof (get_cached_item_items c host port uri) as Hg. rewrite Hget in Hg.
  destruct Hg as (b & a & Hl & Hl' & _ & Hs).
  split; [|exact Hs].
  rewrite Hl, Hl'. cbn [List.length]. rewrite !length_app. cbn [List.length]. lia.
Qed.

Lemma cache_hit_is_served_witness :
  proxy two_entry_cache refused_connection
  = ([ClientWrite (ci_data (mkItem 3 "example.com" "80" "/" [x61; x62; x63]));
      ClientClose],
     Ok (mkCache [mkItem 3 "example.com" "80" "/" [x61; x62; x63];
                  mkItem 2 "b.example" "80" "/" [x68; x69]] 2 5))
  /\ List.length [mkItem 3 "example.com" "80" "/" [x61; x62; x63];
                  mkItem 2 "b.example" "80" "/" [x68; x69]]
     = List.length (items two_entry_cache)
  /\ 5 = cachesize two_entry_cache.
Proof.
  apply (cache_hit_is_served two_entry_cache
           (mkCache [mkItem 3 "example.com" "80" "/" [x61; x62; x63];
                     mkItem 2 "b.example" "80" "/" [x68; x69]] 2 5)
           refused_connection
           ("GET http://example.com/ HTTP/1.1" ++ CRLF)
           ["Host: example.com" ++ CRLF; CRLF]
           (Some "GET") "http://example.com/" "HTTP/1.1" "example.com" "80" "/");
    reflexivity.
Defined.

Lemma delete_last_cache_count (c c1 : cache) (x : cacheitem) :
  delete_last_cache c = Ok (c1, x) -> count c1 = int_sub (count c) 1.
Proof.
  unfold delete_last_cache.
  destruct (unlink_last (items c)) as [[l y]|]; [|discriminate].
  intros H; inversion H; reflexivity.
Qed.

Lemma evict_count (fuel : nat) (c c' : cache) (len : Z) (freed : list cacheitem) :
  count c = Z.of_nat (List.length (items c)) ->
  Z.of_nat (List.length (items c)) <= INT_MAX ->
  evict fuel c len = Ok (c', freed) ->
  count c' = Z.of_nat (List.length (items c'))
  /\ (List.length (items c') <= List.length (items c))%nat.
Proof.
  revert c freed. induction fuel as [|f IH]; intros c freed Hc Hb; simpl.
  - destruct (int_add (cachesize c) len >? MAX_CACHE_SIZE); [discriminate|].
    intros H; inversion H; subst. auto.
  - destruct (int_add (cachesize c) len >? MAX_CACHE_SIZE).
    2:{ intros H; inversion H; subst. auto. }
    destruct (delete_last_cache c) as [[c1 x]| |] eqn:E; simpl; try discriminate.
    pose proof (delete_last_cache_count _ _ _ E) as Hc1.
    apply delete_last_cache_ok in E. destruct E as [El _].
    assert (Hn : List.length (items c) = S (List.length (items c1))).
    { rewrite El, length_app. simpl. lia. }
    assert (Hc1' : count c1 = Z.of_nat (List.length (items c1))).
    { rewrite Hc1, Hc, Hn. rewrite int_sub_small;
        unfold int_range, INT_MIN, INT_MAX in *; lia. }
    destruct (evict f c1 len) as [[c2 xs]| |] eqn:E2; simpl; try discriminate.
    intros H; inversion H; subst.
    destruct (IH c1 xs Hc1' ltac:(lia) E2) as [I1 I2]. split; [exact I1|lia].
Qed.

Lemma get_cached_item_shape (c : cache) h p u :
  count (snd (get_cached_item c h p u)) = count c
  /\ List.length (items (snd (get_cached_item c h p u))) = List.length (items c).
Proof.
  unfold get_cached_item.
  destruct (find_item h p u (items c)) as [[[b x] a]|] eqn:E; simpl; [|auto].
  apply find_item_some in E. destruct E as (-> & _).
  split; [reflexivity|]. rewrite !length_app. simpl. lia.
Qed.

Lemma step_count (c : cache) (o : cache_op) :
  cache_inv c -> op_bounded o = true ->
  count c = Z.of_nat (List.length (items c)) ->
  Z.of_nat (List.length (items c)) < INT_MAX ->
  exists c',
    step c o = Ok c' /\ cache_inv c'
    /\ count c' = Z.of_nat (List.length (items c'))
    /\ (List.length (items c') <= S (List.length (items c)))%nat.
Proof.
  intros Hinv Ho Hc Hb.
  destruct (step_inv c o Hinv Ho) as (c' & E & Hinv').
  exists c'. split; [exact E|]. split; [exact Hinv'|].
  destruct o as [h p u|h p u buf len]; simpl in E.
  - inversion E; subst c'. clear E.
    destruct (get_cached_item_shape c h p u) as [H1 H2].
    rewrite H1, H2. split; [exact Hc|lia].
  - unfold cache_insert in E.
    destruct (evict (S (List.length (items c))) c len) as [[c1 freed]| |] eqn:Ev;
      simpl in E; try discriminate.
    inversion E; subst c'. clear E. simpl.
    destruct (evict_count _ _ _ _ _ Hc ltac:(lia) Ev) as [I1 I2].
    split; [|lia].
    rewrite I1. rewrite int_add_small;
      unfold int_range, INT_MIN, INT_MAX in *; lia.
Qed.

Lemma run_count (ops : list cache_op) (c : cache) :
  cache_inv c -> forallb op_bounded ops = true ->
  count c = Z.of_nat (List.length (items c)) ->
  Z.of_nat (List.length (items c)) + Z.of_nat (List.length ops) <= INT_MAX ->
  exists c', run c ops = Ok c' /\ count c' = Z.of_nat (List.length (items c')).
Proof.
  revert c. induction ops as [|o ops IH]; intros c Hinv Hops Hc Hb; simpl.
  - eauto.
  - simpl in Hops. apply andb_true_iff in Hops. destruct Hops as [Ho Hops].
    cbn [List.length] in Hb.
    destruct (step_count c o Hinv Ho Hc ltac:(lia)) as (c1 & E & Hinv1 & Hc1 & Hl1).
    rewrite E. simpl. apply IH; try assumption. lia.
Qed.

(** X21.  The head's [length] field counts the nodes: after any sequence of
    lookups and insertions from the empty cache (inserted lengths byte counts
    below [MAX_OBJECT_SIZE], fewer than 2^31 operations), the run has returned
    and the count equals the number of nodes in the list. *)
Theorem head_length_counts_nodes (ops : list cache_op) :
  forallb op_bounded ops = true ->
  Z.of_nat (List.length ops) <= INT_MAX ->
  exists c, run cache_init ops = Ok c /\ count c = Z.of_nat (List.length (items c)).
Proof.
  intros Hops Hb.
  apply (run_count ops cache_init cache_init_inv Hops eq_refl). simpl. lia.
Qed.

Lemma head_length_counts_nodes_witness :
  exists c,
    run cache_init ten_objects = Ok c /\ count c = Z.of_nat (List.length (items c)).
Proof.
  apply (head_length_counts_nodes ten_objects).
  - reflexivity.
  - vm_compute. discriminate.
Defined.

End HitAndCount.

(** A request whose port has eight characters: [parse_url] faults before the
    handler has written anything. *)
Example long_port_faults :
  proxy cache_init
    (mkConn ["GET http://example.com:12345678/ HTTP/1.1" ++ CRLF; CRLF] None)
  = ([], Crash).
Proof. reflexivity. Qed.
